(** * GRRLIB_ttf.c: TrueType text rendering for GRRLIB

    A shallow embedding of [GRRLIB_ttf.c], the layer of GRRLIB that sits
    between the FreeType font engine and the GX point-drawing calls of the
    Wii / GameCube, followed by the properties of it that we verify.

    Conventions of the embedding.
    - The target is the 32-bit PowerPC of the console (ILP32): [int],
      [long], [FT_Int], [FT_Pos] and [wchar_t] are 32 bits wide, [u8] is 8
      bits, [s16] is 16 bits.  Machine integers are values of [Z]; every
      conversion the C code performs is written out with [to_u8], [to_s16],
      [to_s32] or [to_u32].  A conversion to a narrower type keeps the
      low bits and [>>] on a signed value is the arithmetic shift
      ([Z.shiftr]), as the console's compiler has them; signed overflow,
      which C leaves undefined, wraps around.
    - An [int] handed to [GX_Position3f32] is converted to [f32]: the
      nearest value with a 24-bit significand, ties to even ([to_f32]).
      Such a value is an integer again, so a position is kept in [Z].
    - FreeType, the C library and GX are external.  FreeType is an
      abstract state machine ([FreeType]), the C library contributes an
      allocator and the multibyte decoder of the current locale ([LibC]).
      Every call to FreeType, to GX and to [malloc] and [free] is
      appended, with its answer, to the [log] of the [World].  [mbstowcs]
      and the [alloca] buffer of [_PrintfTTF] are not part of the log:
      the conversion is a function of the text, and the buffer is local
      to the call.
    - A [GRRLIB_ttfFont*] is an address into a heap of font records, [NULL]
      being address 0; a string pointer is an [option], [None] being [NULL].
      A function returns [None] when the C code would dereference an
      invalid pointer. *)

From Stdlib Require Import ZArith List Lia Bool.
From stdpp Require Import base numbers list gmap.
Import ListNotations.
Local Open Scope Z_scope.

(** ** Machine integers *)

Module CInt.

Definition to_u8 (z : Z) : Z := z mod 256.
Definition to_u32 (z : Z) : Z := z mod 2 ^ 32.
Definition to_s16 (z : Z) : Z := (z + 2 ^ 15) mod 2 ^ 16 - 2 ^ 15.
Definition to_s32 (z : Z) : Z := (z + 2 ^ 31) mod 2 ^ 32 - 2 ^ 31.

Definition INT_MIN : Z := - 2 ^ 31.
Definition INT_MAX : Z := 2 ^ 31 - 1.
Definition UINT_MAX : Z := 2 ^ 32 - 1.
(** [(size_t) -1] *)
Definition SIZE_MAX : Z := 2 ^ 32 - 1.

(** [(f32) z] for an [int] [z]: below 2^24 in magnitude every integer is
    a float; from there on the 24 leading bits are kept and the rest is
    rounded to nearest, ties to the even significand. *)
Definition to_f32 (z : Z) : Z :=
  let a := Z.abs z in
  if a <? 2 ^ 24 then z
  else
    let e := Z.log2 a - 23 in
    let q := a / 2 ^ e in
    let r := a mod 2 ^ e in
    let half := 2 ^ (e - 1) in
    let q' := if (half <? r) || ((r =? half) && Z.odd q) then q + 1 else q in
    Z.sgn z * (q' * 2 ^ e).

End CInt.
Import CInt.

(** ** The GX command stream (libogc) *)

(** The arguments of [GX_Position3f32] are the values of the three
    floats. *)
Inductive GXcmd : Type :=
| GX_Begin (primitive vtxfmt vtxcnt : Z)
| GX_Position3f32 (x y z : Z)
| GX_Color4u8 (r g b a : Z)
| GX_End.

Definition GX_POINTS : Z := 184.   (* 0xB8 *)
Definition GX_VTXFMT0 : Z := 0.

(** What the hardware receives for one point: a position and a colour. *)
Record GXPoint : Type := mkPoint {
  pt_x : Z; pt_y : Z; pt_z : Z;
  pt_r : Z; pt_g : Z; pt_b : Z; pt_a : Z
}.

(** The points of a command stream: every complete
    [GX_Begin(GX_POINTS, _, 1)] ... [GX_End] group with one vertex. *)
Fixpoint points (l : list GXcmd) : list GXPoint :=
  match l with
  | [] => []
  | GX_Begin prim _ cnt :: GX_Position3f32 x y z :: GX_Color4u8 r g b a :: GX_End :: rest =>
      if (prim =? GX_POINTS) && (cnt =? 1)
      then mkPoint x y z r g b a :: points rest
      else points rest
  | _ :: rest => points rest
  end.

(** ** FreeType data (freetype.h, ftimage.h) *)

Record FT_Vector : Type := { vec_x : Z; vec_y : Z }.

(** [FT_Bitmap], the fields the module reads. *)
Record FT_Bitmap : Type := {
  rows : Z;             (* unsigned int *)
  width : Z;            (* unsigned int *)
  buffer : list Z       (* unsigned char* *)
}.

(** [FT_GlyphSlotRec], the fields the module reads. *)
Record FT_GlyphSlotRec : Type := {
  advance : FT_Vector;
  bitmap : FT_Bitmap;
  bitmap_left : Z;      (* FT_Int *)
  bitmap_top : Z        (* FT_Int *)
}.

Definition FT_LOAD_RENDER : Z := Z.shiftl 1 2.
Definition FT_KERNING_DEFAULT : Z := 0.

(** ** DrawBitmap *)

(** [for (i = lo, p = 0; i < hi; i++, p++) body(i, p)], collecting what the
    body emits.  The loop counts [i] upwards to [hi], so [hi - lo]
    iterations are all it can make; [n] bounds the iterations
    ([for_lt_enough]).  Inside the loop [i < hi <= INT_MAX], so [i++] does
    not overflow and is written [i + 1]. *)
Fixpoint for_lt {A} (n : nat) (i p hi : Z) (body : Z -> Z -> list A) : list A :=
  match n with
  | O => []
  | S n' => if i <? hi then body i p ++ for_lt n' (i + 1) (p + 1) hi body else []
  end.

(** [bitmap->buffer[idx]], an [unsigned char].  A read past the end of the
    buffer, which C leaves undefined, yields 0 here; what is proved about
    the bytes a blit reads is proved for buffers that hold them. *)
Definition sample (bmp : FT_Bitmap) (idx : Z) : Z :=
  to_u8 (nth (Z.to_nat idx) (buffer bmp) 0).

(** The body of the inner loop up to the clamp: the [s16 alpha] that is
    handed to [GX_Color4u8]. *)
Definition pixel_alpha (b cA : Z) : Z :=
  let alpha := to_s16 (b - (255 - cA)) in
  if alpha <? 0 then 0 else alpha.

Definition DrawPixel (bmp : FT_Bitmap) (i p j q cR cG cB cA : Z) : list GXcmd :=
  let alpha := pixel_alpha (sample bmp (to_u32 (q * width bmp + p))) cA in
  [ GX_Begin GX_POINTS GX_VTXFMT0 1;
    GX_Position3f32 (to_f32 i) (to_f32 j) 0;
    GX_Color4u8 cR cG cB (to_u8 alpha);
    GX_End ].

Definition DrawBitmap (bmp : FT_Bitmap) (offset top cR cG cB cA : Z) : list GXcmd :=
  let x_max := to_s32 (offset + width bmp) in
  let y_max := to_s32 (top + rows bmp) in
  for_lt (Z.to_nat (x_max - offset)) offset 0 x_max (fun i p =>
    for_lt (Z.to_nat (y_max - top)) top 0 y_max (fun j q =>
      DrawPixel bmp i p j q cR cG cB cA)).

(** ** The font handle (grrlib.h) *)

(** [GRRLIB_ttfFont] is declared in grrlib.h, which is not part of this
    file; the record has the two fields this file reads and writes,
    [myFont->face] and [myFont->kerning]. *)
Record GRRLIB_ttfFont : Type := {
  face : Z;             (* FT_Face, an opaque engine handle *)
  kerning : bool
}.

Definition NULL : Z := 0.
(** A pointer and a [bool], padded, on the 32-bit target. *)
Definition sizeof_GRRLIB_ttfFont : Z := 8.

(** ** External collaborators *)

(** The colour macros [R], [G], [B], [A] of grrlib.h, which is not part of
    this file: they are parameters of the development. *)
Class ColourMacros : Type := {
  R : Z -> Z;
  G : Z -> Z;
  B : Z -> Z;
  A : Z -> Z
}.

(** The FreeType engine over its state [E].  Face handles, error codes and
    glyph indices are integers; a call takes the state and returns its
    answer with the next state.  [FT_Get_Kerning] answers with what it
    leaves in [*akerning] (the module ignores its error code),
    [face_glyph] reads the glyph slot [face->glyph] and [FT_HAS_KERNING]
    the face flags. *)
Class FreeType (E : Type) : Type := {
  FT_New_Memory_Face : Z -> list Z -> Z -> Z -> E -> Z * Z * E;
  FT_Done_Face : Z -> E -> E;
  FT_HAS_KERNING : Z -> E -> bool;
  FT_Set_Pixel_Sizes : Z -> Z -> Z -> E -> Z * E;
  FT_Get_Char_Index : Z -> Z -> E -> Z * E;
  FT_Get_Kerning : Z -> Z -> Z -> Z -> E -> FT_Vector * E;
  FT_Load_Glyph : Z -> Z -> Z -> E -> Z * E;
  face_glyph : Z -> E -> FT_GlyphSlotRec
}.

(** The C library: the allocator's choice of address for a request (0 when
    it fails), the multibyte decoder of the current locale ([None] for an
    invalid sequence; otherwise the wide characters before the terminator)
    and the stale content of fresh stack memory. *)
Class LibC : Type := {
  malloc : gmap Z GRRLIB_ttfFont -> Z -> Z;
  mb_decode : list Z -> option (list Z);
  stack_junk : Z
}.

(** Every call that leaves the module, with its answer. *)
Inductive Event : Type :=
| EvFT_New_Memory_Face (library : Z) (file_base : list Z)
    (file_size face_index err aface : Z)
| EvFT_Done_Face (aface : Z)
| EvFT_Set_Pixel_Sizes (aface pixel_width pixel_height err : Z)
| EvFT_Get_Char_Index (aface charcode glyph_index : Z)
| EvFT_Get_Kerning (aface left_glyph right_glyph kern_mode : Z) (delta : FT_Vector)
| EvFT_Load_Glyph (aface glyph_index load_flags err : Z) (slot : FT_GlyphSlotRec)
| Evmalloc (size ptr : Z)
| Evfree (ptr : Z)
| EvGX (c : GXcmd).

(** The GX commands of a log, in order. *)
Definition gx_of (ev : Event) : list GXcmd :=
  match ev with EvGX c => [c] | _ => [] end.

Definition gx_stream (l : list Event) : list GXcmd := flat_map gx_of l.

Section TTF.

Context {E : Type} `{FreeType E} `{LibC} `{ColourMacros}.

Record World : Type := mkWorld {
  ft : E;                               (* the engine *)
  heap : gmap Z GRRLIB_ttfFont;         (* live font handles *)
  ftLibrary : Z;                        (* static FT_Library ftLibrary *)
  log : list Event
}.

Definition emit (evs : list Event) (w : World) : World :=
  mkWorld (ft w) (heap w) (ftLibrary w) (log w ++ evs).

Definition with_ft (e : E) (w : World) : World :=
  mkWorld e (heap w) (ftLibrary w) (log w).

Definition with_heap (h : gmap Z GRRLIB_ttfFont) (w : World) : World :=
  mkWorld (ft w) h (ftLibrary w) (log w).

(** *** Calls into the engine *)

Definition call_FT_Set_Pixel_Sizes (fc pw ph : Z) (w : World) : Z * World :=
  let '(err, e) := FT_Set_Pixel_Sizes fc pw ph (ft w) in
  (err, emit [EvFT_Set_Pixel_Sizes fc pw ph err] (with_ft e w)).

Definition call_FT_Get_Char_Index (fc c : Z) (w : World) : Z * World :=
  let '(idx, e) := FT_Get_Char_Index fc c (ft w) in
  (idx, emit [EvFT_Get_Char_Index fc c idx] (with_ft e w)).

Definition call_FT_Get_Kerning (fc l r mode : Z) (w : World) : FT_Vector * World :=
  let '(delta, e) := FT_Get_Kerning fc l r mode (ft w) in
  (delta, emit [EvFT_Get_Kerning fc l r mode delta] (with_ft e w)).

Definition call_FT_Load_Glyph (fc idx flags : Z) (w : World) : Z * World :=
  let '(err, e) := FT_Load_Glyph fc idx flags (ft w) in
  (err, emit [EvFT_Load_Glyph fc idx flags err (face_glyph fc e)] (with_ft e w)).

(** *** GRRLIB_LoadTTF *)

Definition GRRLIB_LoadTTF (file_base : list Z) (file_size : Z) (w : World)
  : option (Z * World) :=
  let '(err, Face, e) :=
    FT_New_Memory_Face (ftLibrary w) file_base file_size 0 (ft w) in
  let w := emit [EvFT_New_Memory_Face (ftLibrary w) file_base file_size 0 err Face]
                (with_ft e w) in
  if negb (err =? 0) then Some (NULL, w)
  else
    let myFont := malloc (heap w) sizeof_GRRLIB_ttfFont in
    let w := emit [Evmalloc sizeof_GRRLIB_ttfFont myFont] w in
    if myFont =? NULL then None   (* myFont->kerning = ... through NULL *)
    else
      let font := {| face := Face; kerning := FT_HAS_KERNING Face (ft w) |} in
      Some (myFont, with_heap (<[myFont := font]> (heap w)) w).

(** *** GRRLIB_FreeTTF *)

Definition GRRLIB_FreeTTF (myFont : Z) (w : World) : option World :=
  if negb (myFont =? NULL) then
    match heap w !! myFont with
    | None => None
    | Some font =>
        let w := emit [EvFT_Done_Face (face font)]
                      (with_ft (FT_Done_Face (face font) (ft w)) w) in
        Some (emit [Evfree myFont] (with_heap (delete myFont (heap w)) w))
    end
  else Some w.

(** *** _PrintfTTFW *)

(** The [while ( *utf32 )] loop.  [utf32] holds the cells from the pointer
    onwards; the loop leaves at the first zero cell, and a string is
    always terminated, so the end of the list stands for the terminator
    too.  [font] is [*myFont], which the loop only reads. *)
Fixpoint glyph_loop (font : GRRLIB_ttfFont) (x y penY cR cG cB cA : Z)
    (noprint : bool) (utf32 : list Z) (penX previousGlyph : Z) (w : World)
  : Z * World :=
  match utf32 with
  | [] => (penX, w)
  | c :: utf32 =>
      if c =? 0 then (penX, w)
      else
        let '(glyphIndex, w) := call_FT_Get_Char_Index (face font) (to_u32 c) w in
        let '(penX, w) :=
          if kerning font && negb (previousGlyph =? 0) && negb (glyphIndex =? 0)
          then
            let '(delta, w) :=
              call_FT_Get_Kerning (face font) previousGlyph glyphIndex
                                  FT_KERNING_DEFAULT w in
            (to_s32 (penX + Z.shiftr (vec_x delta) 6), w)
          else (penX, w) in
        let '(err, w) := call_FT_Load_Glyph (face font) glyphIndex FT_LOAD_RENDER w in
        if negb (err =? 0)
        then glyph_loop font x y penY cR cG cB cA noprint utf32 penX previousGlyph w
        else
          let slot := face_glyph (face font) (ft w) in
          let w :=
            if negb noprint
            then emit (map EvGX
                         (DrawBitmap (bitmap slot)
                            (to_s32 (penX + bitmap_left slot + x))
                            (to_s32 (penY - bitmap_top slot + y))
                            cR cG cB cA)) w
            else w in
          let penX := to_s32 (penX + Z.shiftr (vec_x (advance slot)) 6) in
          glyph_loop font x y penY cR cG cB cA noprint utf32 penX glyphIndex w
  end.

Definition _PrintfTTFW (x y myFont : Z) (utf32 : option (list Z))
    (fontSize color : Z) (noprint : bool) (w : World) : option (Z * World) :=
  if (myFont =? NULL) then Some (0, w)
  else
    match utf32 with
    | None => Some (0, w)
    | Some utf32 =>
        match heap w !! myFont with
        | None => None
        | Some font =>
            let Face := face font in
            let penX := 0 in
            let penY := to_s32 fontSize in
            let previousGlyph := 0 in
            let cR := to_u8 (R color) in
            let cG := to_u8 (G color) in
            let cB := to_u8 (B color) in
            let cA := to_u8 (A color) in
            let '(err, w) := call_FT_Set_Pixel_Sizes Face 0 fontSize w in
            let w :=
              if negb (err =? 0) then snd (call_FT_Set_Pixel_Sizes Face 0 12 w)
              else w in
            let '(penX, w) :=
              glyph_loop font x y penY cR cG cB cA noprint utf32
                         penX previousGlyph w in
            Some (to_u32 penX, w)
        end
    end.

Definition GRRLIB_PrintfTTFW (x y myFont : Z) (utf32 : option (list Z))
    (fontSize color : Z) (w : World) : option (Z * World) :=
  _PrintfTTFW x y myFont utf32 fontSize color false w.

Definition GRRLIB_WidthTTFW (myFont : Z) (utf32 : option (list Z))
    (fontSize : Z) (w : World) : option (Z * World) :=
  _PrintfTTFW 0 0 myFont utf32 fontSize 0 true w.

(** *** _PrintfTTF *)

(** [mbstowcs(dest, src, n)] of the C library, from the locale's decoder:
    with [dest == NULL] it answers the number of wide characters [src]
    converts to; otherwise it stores at most [n] of them, the terminator
    included when it fits, and answers how many it stored, not counting
    the terminator.  An invalid sequence answers [(size_t) -1]. *)
Definition mbstowcs (dest : option (list Z)) (src : list Z) (n : Z)
  : Z * option (list Z) :=
  match mb_decode src with
  | None => (SIZE_MAX, dest)
  | Some ws =>
      match dest with
      | None => (Z.of_nat (length ws), None)
      | Some d =>
          let out := take (Z.to_nat n) (ws ++ [0]) in
          (Z.min (Z.of_nat (length ws)) n, Some (out ++ drop (length out) d))
      end
  end.

Definition sizeof_wchar_t : Z := 4.

(** [alloca(bytes)] seen as an array of [wchar_t]. *)
Definition alloca_wchar (bytes : Z) : list Z :=
  replicate (Z.to_nat (bytes / sizeof_wchar_t)) stack_junk.

Definition _PrintfTTF (x y myFont : Z) (string : option (list Z))
    (fontSize color : Z) (noprint : bool) (w : World) : option (Z * World) :=
  if (myFont =? NULL) then Some (0, w)
  else
    match string with
    | None => Some (0, w)
    | Some str =>
        let penX := 0 in
        let length := fst (mbstowcs None str 0) in
        if length =? SIZE_MAX then Some (0, w)
        else
          let length := to_u32 (length + 1) in
          let utf32 := alloca_wchar (to_u32 (length * sizeof_wchar_t)) in
          let '(n, utf32) := mbstowcs (Some utf32) str length in
          if n >? 0 then
            let utf32 := (fun a => <[Z.to_nat (length - 1) := 0]> a) <$> utf32 in
            _PrintfTTFW x y myFont utf32 fontSize color noprint w
          else Some (penX, w)
    end.

Definition GRRLIB_PrintfTTF (x y myFont : Z) (string : option (list Z))
    (fontSize color : Z) (w : World) : option (Z * World) :=
  _PrintfTTF x y myFont string fontSize color false w.

Definition GRRLIB_WidthTTF (myFont : Z) (string : option (list Z))
    (fontSize : Z) (w : World) : option (Z * World) :=
  _PrintfTTF 0 0 myFont string fontSize 0 true w.

End TTF.

Arguments World : clear implicits.

(** ** Specification vocabulary *)

(** [w'] is [w] after the events [tr]: the log has grown by [tr], the heap
    and the library handle are as they were. *)
Definition extends {E : Type} (w w' : World E) (tr : list Event) : Prop :=
  log w' = log w ++ tr /\ heap w' = heap w /\ ftLibrary w' = ftLibrary w.

(** The four commands that draw one point. *)
Definition point_cmds (pt : GXPoint) : list GXcmd :=
  [ GX_Begin GX_POINTS GX_VTXFMT0 1;
    GX_Position3f32 (pt_x pt) (pt_y pt) (pt_z pt);
    GX_Color4u8 (pt_r pt) (pt_g pt) (pt_b pt) (pt_a pt);
    GX_End ].

(** The point [DrawPixel] emits. *)
Definition pixel_point (bmp : FT_Bitmap) (i p j q cR cG cB cA : Z) : GXPoint :=
  mkPoint (to_f32 i) (to_f32 j) 0 cR cG cB
    (to_u8 (pixel_alpha (sample bmp (to_u32 (q * width bmp + p))) cA)).

(** The cells [(p, q)] of a bitmap of width [w] and [r] rows, column after
    column, which is the order in which [DrawBitmap] visits them. *)
Definition cells (w r : Z) : list (Z * Z) :=
  flat_map (fun p => map (fun q => (p, q)) (seqZ 0 r)) (seqZ 0 w).

(** The point the blit owes to cell [(p, q)]. *)
Definition cell_point (bmp : FT_Bitmap) (offset top cR cG cB cA : Z)
    (c : Z * Z) : GXPoint :=
  let '(p, q) := c in
  mkPoint (to_f32 (offset + p)) (to_f32 (top + q)) 0 cR cG cB
          (to_u8 (pixel_alpha (sample bmp (q * width bmp + p)) cA)).

(** How many columns (or rows) a loop of [DrawBitmap] visits when it
    starts at [start] and the bitmap is [extent] wide (or high): all of
    them, or none when [start + extent] does not fit an [int]. *)
Definition reach (start extent : Z) : Z :=
  if start + extent <=? INT_MAX then extent else 0.

(** A bitmap whose buffer holds a byte for every cell. *)
Definition bitmap_ok (bmp : FT_Bitmap) : Prop :=
  0 <= width bmp <= UINT_MAX /\ 0 <= rows bmp <= UINT_MAX
  /\ width bmp * rows bmp <= Z.of_nat (length (buffer bmp))
  /\ Z.of_nat (length (buffer bmp)) <= UINT_MAX + 1
  /\ Forall (fun b => 0 <= b <= 255) (buffer bmp).

(** The characters of a terminated wide string: the cells before the
    first zero. *)
Fixpoint wcs_chars (s : list Z) : list Z :=
  match s with
  | [] => []
  | c :: s' => if c =? 0 then [] else c :: wcs_chars s'
  end.

(** Observations of a log. *)

(** The character codes the engine was asked to map, in order. *)
Definition char_requests (tr : list Event) : list Z :=
  flat_map (fun ev => match ev with
                      | EvFT_Get_Char_Index _ c _ => [c]
                      | _ => []
                      end) tr.

(** The glyph loads requested, in order: index, flags and error code. *)
Definition load_requests (tr : list Event) : list (Z * Z * Z) :=
  flat_map (fun ev => match ev with
                      | EvFT_Load_Glyph _ idx flags err _ => [(idx, flags, err)]
                      | _ => []
                      end) tr.

(** [advance.x >> 6] of a load that succeeded, nothing otherwise. *)
Definition advance_px (ev : Event) : Z :=
  match ev with
  | EvFT_Load_Glyph _ _ _ err slot =>
      if err =? 0 then Z.shiftr (vec_x (advance slot)) 6 else 0
  | _ => 0
  end.

(** [delta.x >> 6] of a kerning lookup. *)
Definition kerning_px (ev : Event) : Z :=
  match ev with
  | EvFT_Get_Kerning _ _ _ _ delta => Z.shiftr (vec_x delta) 6
  | _ => 0
  end.

Definition sumZ (l : list Z) : Z := fold_right Z.add 0 l.

Definition advance_sum (tr : list Event) : Z := sumZ (map advance_px tr).
Definition kerning_sum (tr : list Event) : Z := sumZ (map kerning_px tr).

(** Kerning lookups happen only for a font with kerning, between nonzero
    glyph indices. *)
Definition kerning_lookup_ok (font : GRRLIB_ttfFont) (ev : Event) : Prop :=
  match ev with
  | EvFT_Get_Kerning _ l r mode _ =>
      kerning font = true /\ l <> 0 /\ r <> 0 /\ mode = FT_KERNING_DEFAULT
  | _ => True
  end.

(** *** The per-character protocol *)

Section Protocol.

Variable font : GRRLIB_ttfFont.
Variables x y penY cR cG cB cA : Z.
Variable noprint : bool.

  (** Kerning between the last glyph that loaded, [prev], and the glyph
      [idx] of the current character: one lookup when the font has kerning
      and both indices are nonzero, none otherwise.  The last index is the
      pen movement in pixels. *)
Inductive kern_events (prev idx : Z) : list Event -> Z -> Prop :=
  | ke_lookup delta :
      kerning font = true -> prev <> 0 -> idx <> 0 ->
      kern_events prev idx
        [EvFT_Get_Kerning (face font) prev idx FT_KERNING_DEFAULT delta]
        (Z.shiftr (vec_x delta) 6)
  | ke_none :
      kerning font = false \/ prev = 0 \/ idx = 0 ->
      kern_events prev idx [] 0.

  (** What one character [c] does, starting with last loaded glyph [prev]
      and the pen at [pen]: the glyph index is asked for, kerning is
      applied, the glyph is rasterised with [FT_LOAD_RENDER]; when that
      succeeds, and only then, its points are drawn at the pen (unless
      only measuring) and the pen advances. *)
Inductive glyph_events (prev pen c : Z) : list Event -> Z -> Z -> Prop :=
  | ge_failed idx kevs kpx err slot :
      kern_events prev idx kevs kpx ->
      err <> 0 ->
      glyph_events prev pen c
        (EvFT_Get_Char_Index (face font) (to_u32 c) idx :: kevs ++
         [EvFT_Load_Glyph (face font) idx FT_LOAD_RENDER err slot])
        prev (pen + kpx)
  | ge_loaded idx kevs kpx slot :
      kern_events prev idx kevs kpx ->
      glyph_events prev pen c
        (EvFT_Get_Char_Index (face font) (to_u32 c) idx :: kevs ++
         [EvFT_Load_Glyph (face font) idx FT_LOAD_RENDER 0 slot] ++
         (if noprint then []
          else map EvGX
                 (DrawBitmap (bitmap slot)
                    (to_s32 (pen + kpx + bitmap_left slot + x))
                    (to_s32 (penY - bitmap_top slot + y))
                    cR cG cB cA)))
        idx (pen + kpx + Z.shiftr (vec_x (advance slot)) 6).

  (** The characters of a string, one after the other. *)
Inductive text_events : Z -> Z -> list Z -> list Event -> Z -> Prop :=
  | te_end prev pen : text_events prev pen [] [] pen
  | te_char prev pen c cs seg prev' pen' tr pen'' :
      glyph_events prev pen c seg prev' pen' ->
      text_events prev' pen' cs tr pen'' ->
      text_events prev pen (c :: cs) (seg ++ tr) pen''.

End Protocol.

(** The [FT_Set_Pixel_Sizes] prologue of [_PrintfTTFW]: the requested size,
    then 12 pixels when the engine refused it. *)
Inductive size_events (fc fontSize : Z) : list Event -> Prop :=
| se_accepted :
    size_events fc fontSize [EvFT_Set_Pixel_Sizes fc 0 fontSize 0]
| se_fallback err err' :
    err <> 0 ->
    size_events fc fontSize
      [EvFT_Set_Pixel_Sizes fc 0 fontSize err; EvFT_Set_Pixel_Sizes fc 0 12 err'].

(** ** A small concrete platform

    A three-glyph font engine, the "C" locale and the usual RGBA packing:
    they make the properties below run on concrete input. *)

Module Demo.

Record engine : Type := { px : Z; cur : Z }.

Definition slot_of (e : engine) : FT_GlyphSlotRec :=
  {| advance := {| vec_x := 64 * px e + 32; vec_y := 0 |};
     bitmap := if cur e =? 0
               then {| rows := 0; width := 0; buffer := [] |}
               else {| rows := 2; width := 1; buffer := [255; 100] |};
     bitmap_left := 1;
     bitmap_top := px e |}.

(** Glyphs 1, 2 and 3 for the letters A, B and C; glyph 3 cannot be
    rendered; size 0 is refused. *)
#[export] Instance demo_engine : FreeType engine := {
  FT_New_Memory_Face _ file_base _ _ e :=
    match file_base with [] => (1, 0, e) | _ => (0, 7, e) end;
  FT_Done_Face _ e := e;
  FT_HAS_KERNING _ _ := true;
  FT_Set_Pixel_Sizes _ _ ph e :=
    if ph =? 0 then (1, e) else (0, {| px := ph; cur := cur e |});
  FT_Get_Char_Index _ c e :=
    (if (65 <=? c) && (c <=? 67) then c - 64 else 0, e);
  FT_Get_Kerning _ _ _ _ e := ({| vec_x := -64; vec_y := 0 |}, e);
  FT_Load_Glyph _ idx _ e :=
    if idx =? 3 then (1, e) else (0, {| px := px e; cur := idx |});
  face_glyph _ e := slot_of e
}.

#[export] Instance demo_libc : LibC := {
  malloc h _ := match h !! 4096 with None => 4096 | Some _ => 0 end;
  mb_decode s :=
    if forallb (fun b => b <? 128) (wcs_chars s) then Some (wcs_chars s) else None;
  stack_junk := 0
}.

(** An allocator that has run out of memory. *)
Definition full_libc : LibC := {|
  malloc _ _ := 0;
  mb_decode := @mb_decode demo_libc;
  stack_junk := 0
|}.

#[export] Instance rgba : ColourMacros := {
  R c := Z.land (Z.shiftr c 24) 255;
  G c := Z.land (Z.shiftr c 16) 255;
  B c := Z.land (Z.shiftr c 8) 255;
  A c := Z.land c 255
}.

Definition a_font : GRRLIB_ttfFont := {| face := 7; kerning := true |}.

(** A world with one loaded font at address 4096. *)
Definition w0 : World engine :=
  mkWorld {| px := 0; cur := 0 |} {[ 4096 := a_font ]} 1 [].

(** A world with no font loaded. *)
Definition w_empty : World engine :=
  mkWorld {| px := 0; cur := 0 |} ∅ 1 [].

Definition a_bitmap : FT_Bitmap :=
  {| rows := 2; width := 2; buffer := [0; 100; 200; 255] |}.

End Demo.

(** ** Further vocabulary *)

(** Where a point is drawn. *)
Definition pt_pos (pt : GXPoint) : Z * Z * Z := (pt_x pt, pt_y pt, pt_z pt).

(** A point moved by [(dx, dy)]. *)
Definition shift_point (dx dy : Z) (pt : GXPoint) : GXPoint :=
  mkPoint (pt_x pt + dx) (pt_y pt + dy) (pt_z pt)
          (pt_r pt) (pt_g pt) (pt_b pt) (pt_a pt).

(** The calls of a log that go to the font engine or the allocator: all
    but the GX commands. *)
Definition engine_calls (tr : list Event) : list Event :=
  flat_map (fun ev => match ev with EvGX _ => [] | _ => [ev] end) tr.

(** The kerning lookups of a log, in order: left and right glyph index. *)
Definition kerning_requests (tr : list Event) : list (Z * Z) :=
  flat_map (fun ev => match ev with
                      | EvFT_Get_Kerning _ l r _ _ => [(l, r)]
                      | _ => []
                      end) tr.

(** The events text rendering may cause: sizing, glyph lookup, kerning,
    glyph loading and GX commands. *)
Definition is_render_event (ev : Event) : bool :=
  match ev with
  | EvFT_Set_Pixel_Sizes _ _ _ _ | EvFT_Get_Char_Index _ _ _
  | EvFT_Get_Kerning _ _ _ _ _ | EvFT_Load_Glyph _ _ _ _ _ | EvGX _ => true
  | _ => false
  end.

(** Two worlds the font engine cannot tell apart: the same engine state
    and the same history of calls to it, GX commands left aside. *)
Definition same_engine {E : Type} (w1 w2 : World E) : Prop :=
  ft w1 = ft w2 /\ engine_calls (log w1) = engine_calls (log w2).

(** An engine that can map characters but renders no glyph. *)
Module DemoBroken.

#[export] Instance broken_engine : FreeType Demo.engine := {
  FT_New_Memory_Face := @FT_New_Memory_Face _ Demo.demo_engine;
  FT_Done_Face := @FT_Done_Face _ Demo.demo_engine;
  FT_HAS_KERNING := @FT_HAS_KERNING _ Demo.demo_engine;
  FT_Set_Pixel_Sizes := @FT_Set_Pixel_Sizes _ Demo.demo_engine;
  FT_Get_Char_Index := @FT_Get_Char_Index _ Demo.demo_engine;
  FT_Get_Kerning := @FT_Get_Kerning _ Demo.demo_engine;
  FT_Load_Glyph _ _ _ e := (6, e);
  face_glyph := @face_glyph _ Demo.demo_engine
}.

End DemoBroken.

(** * Properties *)

(** ** Machine integers *)

Section CIntFacts.

Lemma to_u8_range z : 0 <= to_u8 z <= 255.
Proof. unfold to_u8. pose proof (Z.mod_pos_bound z 256). lia. Qed.

Lemma to_u8_id z : 0 <= z <= 255 -> to_u8 z = z.
Proof. intros H. unfold to_u8. apply Z.mod_small. lia. Qed.

Lemma to_s16_id z : - 2 ^ 15 <= z < 2 ^ 15 -> to_s16 z = z.
Proof. intros H. unfold to_s16. rewrite Z.mod_small; lia. Qed.

Lemma to_s32_id z : INT_MIN <= z <= INT_MAX -> to_s32 z = z.
Proof. unfold INT_MIN, INT_MAX, to_s32. intros H. rewrite Z.mod_small; lia. Qed.

Lemma to_s32_range z : INT_MIN <= to_s32 z <= INT_MAX.
Proof.
  unfold INT_MIN, INT_MAX, to_s32.
  pose proof (Z.mod_pos_bound (z + 2 ^ 31) (2 ^ 32)). lia.
Qed.

Lemma to_u32_id z : 0 <= z <= UINT_MAX -> to_u32 z = z.
Proof. unfold UINT_MAX, to_u32. intros H. apply Z.mod_small. lia. Qed.

Lemma to_u32_range z : 0 <= to_u32 z <= UINT_MAX.
Proof. unfold UINT_MAX, to_u32. pose proof (Z.mod_pos_bound z (2 ^ 32)). lia. Qed.

(** Signed addition wraps: reducing an operand first changes nothing. *)
Lemma to_s32_add_l a b : to_s32 (to_s32 a + b) = to_s32 (a + b).
Proof.
  unfold to_s32.
  replace ((a + 2 ^ 31) mod 2 ^ 32 - 2 ^ 31 + b + 2 ^ 31)
    with ((a + 2 ^ 31) mod 2 ^ 32 + b) by lia.
  rewrite Zplus_mod_idemp_l. f_equal. f_equal. lia.
Qed.

(** Converting an [int] to [u32] keeps the residue modulo 2^32. *)
Lemma to_u32_s32 a : to_u32 (to_s32 a) = to_u32 a.
Proof.
  unfold to_u32, to_s32.
  rewrite <- Zminus_mod_idemp_l, Zmod_mod, Zminus_mod_idemp_l.
  replace (a + 2 ^ 31 - 2 ^ 31) with a by lia. reflexivity.
Qed.

End CIntFacts.

(** ** DrawBitmap *)

Section DrawBitmapFacts.

Lemma flat_map_fmap {X Y W : Type} (f : Y -> list W) (g : X -> Y) (l : list X) :
  flat_map f (g <$> l) = flat_map (fun a => f (g a)) l.
Proof. induction l as [|a l IH]; simpl; [reflexivity | f_equal; exact IH]. Qed.

(** The body of a loop may be flattened after the loop has run. *)
Lemma for_lt_flat_map {X Y : Type} (f : X -> list Y) (g : Z -> Z -> list X) n :
  forall i p hi,
    for_lt n i p hi (fun i p => flat_map f (g i p)) = flat_map f (for_lt n i p hi g).
Proof.
  induction n as [|n IH]; intros i p hi; simpl; [reflexivity|].
  destruct (i <? hi); [|reflexivity].
  now rewrite flat_map_app, IH.
Qed.

(** More iterations than [hi - i] are never used: the bound given to
    [for_lt] in [DrawBitmap] lets the C loop run to its end. *)
Lemma for_lt_enough {X : Type} (body : Z -> Z -> list X) hi n :
  forall i p,
    (Z.to_nat (hi - i) <= n)%nat ->
    for_lt n i p hi body = for_lt (Z.to_nat (hi - i)) i p hi body.
Proof.
  induction n as [|n IH]; intros i p Hn.
  - replace (Z.to_nat (hi - i)) with O by lia. reflexivity.
  - simpl. destruct (Z.ltb_spec i hi) as [Hlt|Hge].
    + replace (Z.to_nat (hi - i)) with (S (Z.to_nat (hi - (i + 1)))) by lia.
      simpl. apply Z.ltb_lt in Hlt. rewrite Hlt. f_equal.
      rewrite IH by lia. reflexivity.
    + replace (Z.to_nat (hi - i)) with O by lia. reflexivity.
Qed.

(** The loop visits [lo, lo + 1, ..., hi - 1] with [p] counting from its
    start value. *)
Lemma for_lt_seqZ {X : Type} (body : Z -> Z -> list X) hi n :
  forall lo p,
    n = Z.to_nat (hi - lo) ->
    for_lt n lo p hi body
    = flat_map (fun k => body (lo + k) (p + k)) (seqZ 0 (hi - lo)).
Proof.
  induction n as [|n IH]; intros lo p Hn.
  - rewrite seqZ_nil by lia. reflexivity.
  - simpl. assert (Hlt : lo < hi) by lia.
    apply Z.ltb_lt in Hlt as Hb. rewrite Hb.
    rewrite (seqZ_cons 0 (hi - lo)) by lia. simpl.
    rewrite !Z.add_0_r. f_equal.
    rewrite IH by lia.
    replace (Z.pred (hi - lo)) with (hi - (lo + 1)) by lia.
    change (Z.succ 0) with (1 + 0).
    rewrite <- (fmap_add_seqZ 1 0).
    rewrite (flat_map_fmap (fun k => body (lo + k) (p + k)) (Z.add 1)).
    apply flat_map_ext. intros k. f_equal; lia.
Qed.

(** Decoding the commands of a list of points gives the points back. *)
Lemma points_point_cmds (pts : list GXPoint) (rest : list GXcmd) :
  points (flat_map point_cmds pts ++ rest) = pts ++ points rest.
Proof.
  induction pts as [|[px py pz pr pg pb pa] pts IH]; [reflexivity|].
  cbn [flat_map point_cmds app pt_x pt_y pt_z pt_r pt_g pt_b pt_a].
  cbn [points]. change (GX_POINTS =? GX_POINTS) with true.
  change (1 =? 1) with true. cbn [andb]. now rewrite IH.
Qed.

(** The clamp of [DrawPixel] on bytes. *)
Lemma pixel_alpha_bytes b cA :
  0 <= b <= 255 -> 0 <= cA <= 255 ->
  pixel_alpha b cA = Z.max 0 (b - (255 - cA)).
Proof.
  intros Hb Hc. unfold pixel_alpha.
  rewrite to_s16_id by lia.
  destruct (Z.ltb_spec (b - (255 - cA)) 0); lia.
Qed.

Lemma for_lt_ext {X : Type} (f g : Z -> Z -> list X) hi n :
  (forall i p, f i p = g i p) ->
  forall i p, for_lt n i p hi f = for_lt n i p hi g.
Proof.
  intros Hfg. induction n as [|n IH]; intros i p; simpl; [reflexivity|].
  now rewrite Hfg, IH.
Qed.

Lemma for_lt_Forall {X : Type} (P : X -> Prop) (body : Z -> Z -> list X) hi n :
  (forall i p, Forall P (body i p)) ->
  forall i p, Forall P (for_lt n i p hi body).
Proof.
  intros Hbody. induction n as [|n IH]; intros i p; simpl; [constructor|].
  destruct (i <? hi); [|constructor].
  apply Forall_app. split; [apply Hbody | apply IH].
Qed.

(** [DrawBitmap] is its two loops over [pixel_point], each point sent as
    its four commands. *)
Lemma DrawBitmap_pixel_points bmp offset top cR cG cB cA :
  DrawBitmap bmp offset top cR cG cB cA
  = flat_map point_cmds
      (for_lt (Z.to_nat (to_s32 (offset + width bmp) - offset)) offset 0
              (to_s32 (offset + width bmp))
         (fun i p =>
            for_lt (Z.to_nat (to_s32 (top + rows bmp) - top)) top 0
                   (to_s32 (top + rows bmp))
              (fun j q => [pixel_point bmp i p j q cR cG cB cA]))).
Proof.
  unfold DrawBitmap. rewrite <- for_lt_flat_map.
  apply for_lt_ext. intros i p. rewrite <- for_lt_flat_map.
  apply for_lt_ext. intros j q. reflexivity.
Qed.

Lemma cells_elem (w r p q : Z) :
  (p, q) ∈ cells w r <-> 0 <= p < w /\ 0 <= q < r.
Proof.
  unfold cells. rewrite list_elem_of_In, in_flat_map. split.
  - intros (p' & Hp' & Hin). apply in_map_iff in Hin as (q' & Heq & Hq').
    inversion Heq; subst p' q'.
    apply list_elem_of_In, elem_of_seqZ in Hp'.
    apply list_elem_of_In, elem_of_seqZ in Hq'. lia.
  - intros [Hp Hq]. exists p. split.
    + apply list_elem_of_In, elem_of_seqZ. lia.
    + apply in_map_iff. exists q. split; [reflexivity|].
      apply list_elem_of_In, elem_of_seqZ. lia.
Qed.

Lemma cells_NoDup (w r : Z) : NoDup (cells w r).
Proof.
  unfold cells.
  change (NoDup (seqZ 0 w ≫= (fun p => (fun q => (p, q)) <$> seqZ 0 r))).
  apply NoDup_bind.
  - intros p1 p2 [p q] _ _ H1 H2.
    apply list_elem_of_fmap in H1 as (q1 & Heq1 & _).
    apply list_elem_of_fmap in H2 as (q2 & Heq2 & _). congruence.
  - intros p _. apply NoDup_fmap; [|apply NoDup_seqZ].
    intros q1 q2 Heq. congruence.
  - apply NoDup_seqZ.
Qed.

Lemma cells_length (w r : Z) :
  0 <= w -> 0 <= r -> length (cells w r) = Z.to_nat (w * r).
Proof.
  intros Hw Hr. unfold cells.
  rewrite (flat_map_constant_length (c := Z.to_nat r)).
  - rewrite length_seqZ. lia.
  - intros p _. now rewrite length_map, length_seqZ.
Qed.

End DrawBitmapFacts.

Section DrawBitmapClaims.

Lemma flat_map_ext_elem {X Y : Type} (f g : X -> list Y) (l : list X) :
  (forall a, a ∈ l -> f a = g a) -> flat_map f l = flat_map g l.
Proof.
  induction l as [|a l IH]; intros Hfg; simpl; [reflexivity|].
  rewrite (Hfg a) by apply list_elem_of_here.
  f_equal. apply IH. intros b Hb. apply Hfg. now apply list_elem_of_further.
Qed.

Lemma map_cells {X : Type} (f : Z * Z -> X) (w r : Z) :
  map f (cells w r)
  = flat_map (fun p => flat_map (fun q => [f (p, q)]) (seqZ 0 r)) (seqZ 0 w).
Proof.
  unfold cells. generalize (seqZ 0 r) as qs. intros qs.
  induction (seqZ 0 w) as [|p ps IH]; simpl; [reflexivity|].
  rewrite map_app, IH. f_equal.
  clear IH. induction qs as [|q qs IH]; simpl; [reflexivity|].
  f_equal. exact IH.
Qed.

(** When the sums [offset + width] and [top + rows] stay within [int] and
    the cell count within [unsigned], the loops of [DrawBitmap] visit the
    cells of the bitmap column after column. *)
Lemma DrawBitmap_cells bmp offset top cR cG cB cA :
  0 <= width bmp -> 0 <= rows bmp ->
  INT_MIN <= offset -> offset + width bmp <= INT_MAX ->
  INT_MIN <= top -> top + rows bmp <= INT_MAX ->
  width bmp * rows bmp <= UINT_MAX + 1 ->
  DrawBitmap bmp offset top cR cG cB cA
  = flat_map point_cmds
      (map (cell_point bmp offset top cR cG cB cA) (cells (width bmp) (rows bmp))).
Proof.
  intros Hw Hr Ho Hxm Ht Hym Hsz.
  rewrite DrawBitmap_pixel_points.
  rewrite !to_s32_id by lia. f_equal.
  rewrite for_lt_seqZ by reflexivity.
  replace (offset + width bmp - offset) with (width bmp) by lia.
  rewrite map_cells.
  apply flat_map_ext_elem. intros p Hp. apply elem_of_seqZ in Hp.
  rewrite for_lt_seqZ by reflexivity.
  replace (top + rows bmp - top) with (rows bmp) by lia.
  apply flat_map_ext_elem. intros q Hq. apply elem_of_seqZ in Hq.
  unfold pixel_point, cell_point. rewrite !Z.add_0_l.
  rewrite to_u32_id; [reflexivity|].
  unfold UINT_MAX in *. nia.
Qed.

Lemma sample_byte bmp idx : 0 <= sample bmp idx <= 255.
Proof. apply to_u8_range. Qed.

End DrawBitmapClaims.

(** ** The world and the calls into the engine *)

Section WorldFacts.

Context {E : Type} `{FreeType E} `{LibC} `{ColourMacros}.

Lemma extends_refl (w : World E) : extends w w [].
Proof. unfold extends. now rewrite app_nil_r. Qed.

Lemma extends_trans (w1 w2 w3 : World E) tr1 tr2 :
  extends w1 w2 tr1 -> extends w2 w3 tr2 -> extends w1 w3 (tr1 ++ tr2).
Proof.
  intros (Hl1 & Hh1 & Hf1) (Hl2 & Hh2 & Hf2). unfold extends.
  rewrite Hl2, Hl1, Hh2, Hh1, Hf2, Hf1, app_assoc. auto.
Qed.

Lemma extends_emit (w : World E) tr : extends w (emit tr w) tr.
Proof. unfold extends. auto. Qed.

Lemma call_FT_Set_Pixel_Sizes_extends fc pw ph w :
  extends w (call_FT_Set_Pixel_Sizes fc pw ph w).2
    [EvFT_Set_Pixel_Sizes fc pw ph (call_FT_Set_Pixel_Sizes fc pw ph w).1].
Proof.
  unfold call_FT_Set_Pixel_Sizes.
  destruct (FT_Set_Pixel_Sizes fc pw ph (ft w)) as [err e]. unfold extends. auto.
Qed.

Lemma call_FT_Get_Char_Index_extends fc c w :
  extends w (call_FT_Get_Char_Index fc c w).2
    [EvFT_Get_Char_Index fc c (call_FT_Get_Char_Index fc c w).1].
Proof.
  unfold call_FT_Get_Char_Index.
  destruct (FT_Get_Char_Index fc c (ft w)) as [idx e]. unfold extends. auto.
Qed.

Lemma call_FT_Get_Kerning_extends fc l r mode w :
  extends w (call_FT_Get_Kerning fc l r mode w).2
    [EvFT_Get_Kerning fc l r mode (call_FT_Get_Kerning fc l r mode w).1].
Proof.
  unfold call_FT_Get_Kerning.
  destruct (FT_Get_Kerning fc l r mode (ft w)) as [delta e]. unfold extends. auto.
Qed.

Lemma call_FT_Load_Glyph_extends fc idx flags w :
  let r := call_FT_Load_Glyph fc idx flags w in
  extends w r.2 [EvFT_Load_Glyph fc idx flags r.1 (face_glyph fc (ft r.2))].
Proof.
  unfold call_FT_Load_Glyph.
  destruct (FT_Load_Glyph fc idx flags (ft w)) as [err e]. unfold extends. auto.
Qed.

(** The engine does not see the log: calls made from worlds with the same
    engine state answer alike and leave the same engine state. *)
Lemma call_FT_Set_Pixel_Sizes_ft fc pw ph w1 w2 :
  ft w1 = ft w2 ->
  (call_FT_Set_Pixel_Sizes fc pw ph w1).1 = (call_FT_Set_Pixel_Sizes fc pw ph w2).1
  /\ ft (call_FT_Set_Pixel_Sizes fc pw ph w1).2 = ft (call_FT_Set_Pixel_Sizes fc pw ph w2).2.
Proof.
  intros Hft. unfold call_FT_Set_Pixel_Sizes. rewrite Hft.
  destruct (FT_Set_Pixel_Sizes fc pw ph (ft w2)). auto.
Qed.

Lemma call_FT_Get_Char_Index_ft fc c w1 w2 :
  ft w1 = ft w2 ->
  (call_FT_Get_Char_Index fc c w1).1 = (call_FT_Get_Char_Index fc c w2).1
  /\ ft (call_FT_Get_Char_Index fc c w1).2 = ft (call_FT_Get_Char_Index fc c w2).2.
Proof.
  intros Hft. unfold call_FT_Get_Char_Index. rewrite Hft.
  destruct (FT_Get_Char_Index fc c (ft w2)). auto.
Qed.

Lemma call_FT_Get_Kerning_ft fc l r mode w1 w2 :
  ft w1 = ft w2 ->
  (call_FT_Get_Kerning fc l r mode w1).1 = (call_FT_Get_Kerning fc l r mode w2).1
  /\ ft (call_FT_Get_Kerning fc l r mode w1).2 = ft (call_FT_Get_Kerning fc l r mode w2).2.
Proof.
  intros Hft. unfold call_FT_Get_Kerning. rewrite Hft.
  destruct (FT_Get_Kerning fc l r mode (ft w2)). auto.
Qed.

Lemma call_FT_Load_Glyph_ft fc idx flags w1 w2 :
  ft w1 = ft w2 ->
  (call_FT_Load_Glyph fc idx flags w1).1 = (call_FT_Load_Glyph fc idx flags w2).1
  /\ ft (call_FT_Load_Glyph fc idx flags w1).2 = ft (call_FT_Load_Glyph fc idx flags w2).2.
Proof.
  intros Hft. unfold call_FT_Load_Glyph. rewrite Hft.
  destruct (FT_Load_Glyph fc idx flags (ft w2)). auto.
Qed.

End WorldFacts.

(** ** The glyph loop *)

Section GlyphLoopFacts.

Context {E : Type} `{FreeType E} `{LibC} `{ColourMacros}.

Variable font : GRRLIB_ttfFont.
Variables x y penY cR cG cB cA : Z.

Lemma to_s32_pen pen kpx a b :
  to_s32 (to_s32 (pen + kpx) + a + b) = to_s32 (pen + kpx + a + b).
Proof.
  replace (to_s32 (pen + kpx) + a + b) with (to_s32 (pen + kpx) + (a + b)) by lia.
  rewrite to_s32_add_l. f_equal. lia.
Qed.

(** The kerning step of the loop body. *)
Lemma kerning_step (prev idx pen : Z) (w : World E) :
  let r :=
    if kerning font && negb (prev =? 0) && negb (idx =? 0)
    then
      let '(delta, w') :=
        call_FT_Get_Kerning (face font) prev idx FT_KERNING_DEFAULT w in
      (to_s32 (to_s32 pen + Z.shiftr (vec_x delta) 6), w')
    else (to_s32 pen, w) in
  exists kevs kpx,
    r.1 = to_s32 (pen + kpx) /\ extends w r.2 kevs
    /\ kern_events font prev idx kevs kpx.
Proof.
  assert (Hnone : kerning font = false \/ prev = 0 \/ idx = 0 ->
            exists kevs kpx,
              (to_s32 pen, w).1 = to_s32 (pen + kpx) /\ extends w (to_s32 pen, w).2 kevs
              /\ kern_events font prev idx kevs kpx).
  { intros Hno. exists [], 0. rewrite Z.add_0_r. cbn [fst snd].
    split; [reflexivity|]. split; [apply extends_refl | now constructor]. }
  destruct (kerning font) eqn:Hk; cbn [andb]; [|auto].
  destruct (Z.eqb_spec prev 0) as [Hp|Hp]; cbn [andb negb]; [auto|].
  destruct (Z.eqb_spec idx 0) as [Hi|Hi]; cbn [andb negb]; [auto|].
  pose proof (call_FT_Get_Kerning_extends (face font) prev idx FT_KERNING_DEFAULT w) as Hext.
  destruct (call_FT_Get_Kerning (face font) prev idx FT_KERNING_DEFAULT w)
    as [delta w'] eqn:Hcall.
  cbn [fst snd] in *.
  exists [EvFT_Get_Kerning (face font) prev idx FT_KERNING_DEFAULT delta],
         (Z.shiftr (vec_x delta) 6).
  split; [apply to_s32_add_l|]. split; [exact Hext | now constructor].
Qed.

(** The loop follows the per-character protocol, and its [int penX] is the
    pen of the protocol reduced to 32 bits. *)
Lemma glyph_loop_protocol (noprint : bool) (utf32 : list Z) :
  forall (pen prev : Z) (w : World E),
    let r := glyph_loop font x y penY cR cG cB cA noprint utf32 (to_s32 pen) prev w in
    exists tr pen',
      r.1 = to_s32 pen' /\ extends w r.2 tr
      /\ text_events font x y penY cR cG cB cA noprint prev pen (wcs_chars utf32) tr pen'.
Proof.
  induction utf32 as [|c utf32' IH]; intros pen prev w.
  { exists [], pen. cbn. split; [reflexivity|].
    split; [apply extends_refl | constructor]. }
  cbn [glyph_loop wcs_chars].
  destruct (c =? 0).
  { exists [], pen. cbn. split; [reflexivity|].
    split; [apply extends_refl | constructor]. }
  pose proof (call_FT_Get_Char_Index_extends (face font) (to_u32 c) w) as Hidx.
  destruct (call_FT_Get_Char_Index (face font) (to_u32 c) w) as [idx w1].
  cbn [fst snd] in Hidx.
  pose proof (kerning_step prev idx pen w1) as Hkern. cbv zeta in Hkern.
  destruct (if kerning font && negb (prev =? 0) && negb (idx =? 0)
            then let '(delta, w') :=
                   call_FT_Get_Kerning (face font) prev idx FT_KERNING_DEFAULT w1 in
                 (to_s32 (to_s32 pen + Z.shiftr (vec_x delta) 6), w')
            else (to_s32 pen, w1)) as [penX w2].
  destruct Hkern as (kevs & kpx & HpenX & Hext2 & Hkevs). cbn [fst snd] in *.
  subst penX.
  pose proof (call_FT_Load_Glyph_extends (face font) idx FT_LOAD_RENDER w2) as Hload.
  cbv zeta in Hload.
  destruct (call_FT_Load_Glyph (face font) idx FT_LOAD_RENDER w2) as [err w3].
  cbn [fst snd] in Hload.
  destruct (Z.eqb_spec err 0) as [Herr|Herr]; cbn [negb].
  - (* the glyph is loaded *)
    subst err.
    set (slot := face_glyph (face font) (ft w3)) in *.
    set (draw := if noprint then []
                 else map EvGX
                        (DrawBitmap (bitmap slot)
                           (to_s32 (pen + kpx + bitmap_left slot + x))
                           (to_s32 (penY - bitmap_top slot + y)) cR cG cB cA)).
    set (w4 := if negb noprint
               then emit (map EvGX
                            (DrawBitmap (bitmap slot)
                               (to_s32 (to_s32 (pen + kpx) + bitmap_left slot + x))
                               (to_s32 (penY - bitmap_top slot + y)) cR cG cB cA)) w3
               else w3).
    assert (Hdraw : extends w3 w4 draw).
    { unfold w4, draw. destruct noprint; cbn [negb].
      - apply extends_refl.
      - rewrite to_s32_pen. apply extends_emit. }
    rewrite to_s32_add_l.
    destruct (IH (pen + kpx + Z.shiftr (vec_x (advance slot)) 6) idx w4)
      as (tr & pen' & Hr & Hext & Htext).
    exists ((EvFT_Get_Char_Index (face font) (to_u32 c) idx :: kevs ++
             [EvFT_Load_Glyph (face font) idx FT_LOAD_RENDER 0 slot] ++ draw) ++ tr), pen'.
    split; [exact Hr|]. split.
    + eapply extends_trans; [|exact Hext].
      change (EvFT_Get_Char_Index (face font) (to_u32 c) idx :: kevs ++
              [EvFT_Load_Glyph (face font) idx FT_LOAD_RENDER 0 slot] ++ draw)
        with ([EvFT_Get_Char_Index (face font) (to_u32 c) idx] ++ kevs ++
              [EvFT_Load_Glyph (face font) idx FT_LOAD_RENDER 0 slot] ++ draw).
      eapply extends_trans; [exact Hidx|].
      eapply extends_trans; [exact Hext2|].
      eapply extends_trans; [exact Hload | exact Hdraw].
    + econstructor; [|exact Htext]. now apply ge_loaded.
  - (* the glyph failed to load: continue *)
    destruct (IH (pen + kpx) prev w3) as (tr & pen' & Hr & Hext & Htext).
    exists ((EvFT_Get_Char_Index (face font) (to_u32 c) idx :: kevs ++
             [EvFT_Load_Glyph (face font) idx FT_LOAD_RENDER err
                (face_glyph (face font) (ft w3))]) ++ tr), pen'.
    split; [exact Hr|]. split.
    + eapply extends_trans; [|exact Hext].
      change (EvFT_Get_Char_Index (face font) (to_u32 c) idx :: kevs ++
              [EvFT_Load_Glyph (face font) idx FT_LOAD_RENDER err
                 (face_glyph (face font) (ft w3))])
        with ([EvFT_Get_Char_Index (face font) (to_u32 c) idx] ++ kevs ++
              [EvFT_Load_Glyph (face font) idx FT_LOAD_RENDER err
                 (face_glyph (face font) (ft w3))]).
      eapply extends_trans; [exact Hidx|].
      eapply extends_trans; [exact Hext2 | exact Hload].
    + econstructor; [|exact Htext]. now apply ge_failed.
Qed.

(** *** What the protocol implies for the observations of a log *)

Lemma sumZ_app l1 l2 : sumZ (l1 ++ l2) = sumZ l1 + sumZ l2.
Proof.
  unfold sumZ. induction l1 as [|a l1 IH]; cbn [fold_right app]; lia.
Qed.

Lemma advance_sum_app tr1 tr2 :
  advance_sum (tr1 ++ tr2) = advance_sum tr1 + advance_sum tr2.
Proof. unfold advance_sum. now rewrite map_app, sumZ_app. Qed.

Lemma kerning_sum_app tr1 tr2 :
  kerning_sum (tr1 ++ tr2) = kerning_sum tr1 + kerning_sum tr2.
Proof. unfold kerning_sum. now rewrite map_app, sumZ_app. Qed.

Lemma advance_sum_gx cmds : advance_sum (map EvGX cmds) = 0.
Proof. induction cmds as [|c l IH]; [reflexivity | exact IH]. Qed.

Lemma kerning_sum_gx cmds : kerning_sum (map EvGX cmds) = 0.
Proof. induction cmds as [|c l IH]; [reflexivity | exact IH]. Qed.

Lemma gx_stream_app tr1 tr2 : gx_stream (tr1 ++ tr2) = gx_stream tr1 ++ gx_stream tr2.
Proof. apply flat_map_app. Qed.

Lemma gx_stream_gx cmds : gx_stream (map EvGX cmds) = cmds.
Proof. induction cmds as [|c l IH]; [reflexivity | cbn; now f_equal]. Qed.

Lemma char_requests_app tr1 tr2 :
  char_requests (tr1 ++ tr2) = char_requests tr1 ++ char_requests tr2.
Proof. apply flat_map_app. Qed.

Lemma load_requests_app tr1 tr2 :
  load_requests (tr1 ++ tr2) = load_requests tr1 ++ load_requests tr2.
Proof. apply flat_map_app. Qed.

Lemma char_requests_gx cmds : char_requests (map EvGX cmds) = [].
Proof. induction cmds as [|c l IH]; [reflexivity | exact IH]. Qed.

Lemma load_requests_gx cmds : load_requests (map EvGX cmds) = [].
Proof. induction cmds as [|c l IH]; [reflexivity | exact IH]. Qed.

Lemma kern_events_obs prev idx kevs kpx :
  kern_events font prev idx kevs kpx ->
  advance_sum kevs = 0 /\ kerning_sum kevs = kpx /\ gx_stream kevs = []
  /\ char_requests kevs = [] /\ load_requests kevs = []
  /\ Forall (kerning_lookup_ok font) kevs.
Proof.
  intros [delta Hk Hp Hi|Hno]; cbn.
  - repeat split; try lia; auto. constructor; [cbn; auto | constructor].
  - repeat split; constructor.
Qed.

Lemma glyph_events_obs noprint prev pen c seg prev' pen' :
  glyph_events font x y penY cR cG cB cA noprint prev pen c seg prev' pen' ->
  pen' = pen + advance_sum seg + kerning_sum seg
  /\ char_requests seg = [to_u32 c]
  /\ (exists idx err, load_requests seg = [(idx, FT_LOAD_RENDER, err)])
  /\ Forall (kerning_lookup_ok font) seg
  /\ (noprint = true -> gx_stream seg = []).
Proof.
  intros [idx kevs kpx err slot Hk Herr|idx kevs kpx slot Hk];
    destruct (kern_events_obs _ _ _ _ Hk) as (Ha & Hks & Hgx & Hc & Hl & Hok).
  - change (EvFT_Get_Char_Index (face font) (to_u32 c) idx :: kevs ++
            [EvFT_Load_Glyph (face font) idx FT_LOAD_RENDER err slot])
      with ([EvFT_Get_Char_Index (face font) (to_u32 c) idx] ++ kevs ++
            [EvFT_Load_Glyph (face font) idx FT_LOAD_RENDER err slot]).
    rewrite !advance_sum_app, !kerning_sum_app, !char_requests_app,
      !load_requests_app, !gx_stream_app, Ha, Hks, Hgx, Hc, Hl.
    apply Z.eqb_neq in Herr as Hb.
    unfold advance_sum, kerning_sum. cbn. rewrite Hb. cbn.
    split; [lia|]. split; [reflexivity|]. split; [eauto|]. split; [|reflexivity].
    constructor; [exact I|]. apply Forall_app. split; [exact Hok|].
    constructor; [exact I | constructor].
  - change (EvFT_Get_Char_Index (face font) (to_u32 c) idx :: kevs ++
            [EvFT_Load_Glyph (face font) idx FT_LOAD_RENDER 0 slot] ++
            (if noprint then [] else map EvGX
               (DrawBitmap (bitmap slot) (to_s32 (pen + kpx + bitmap_left slot + x))
                  (to_s32 (penY - bitmap_top slot + y)) cR cG cB cA)))
      with ([EvFT_Get_Char_Index (face font) (to_u32 c) idx] ++ kevs ++
            [EvFT_Load_Glyph (face font) idx FT_LOAD_RENDER 0 slot] ++
            (if noprint then [] else map EvGX
               (DrawBitmap (bitmap slot) (to_s32 (pen + kpx + bitmap_left slot + x))
                  (to_s32 (penY - bitmap_top slot + y)) cR cG cB cA))).
    rewrite !advance_sum_app, !kerning_sum_app, !char_requests_app,
      !load_requests_app, !gx_stream_app, Ha, Hks, Hgx, Hc, Hl.
    assert (Hdraw : forall cmds,
              advance_sum (if noprint then [] else map EvGX cmds) = 0
              /\ kerning_sum (if noprint then [] else map EvGX cmds) = 0
              /\ char_requests (if noprint then [] else map EvGX cmds) = []
              /\ load_requests (if noprint then [] else map EvGX cmds) = []
              /\ Forall (kerning_lookup_ok font) (if noprint then [] else map EvGX cmds)).
    { intros cmds. destruct noprint.
      - repeat split; constructor.
      - rewrite advance_sum_gx, kerning_sum_gx, char_requests_gx, load_requests_gx.
        repeat split. apply Forall_forall. intros ev Hev.
        apply list_elem_of_fmap in Hev as (cmd & -> & _). exact I. }
    match goal with |- context [DrawBitmap ?a ?b ?d ?e ?f ?g ?h] =>
      destruct (Hdraw (DrawBitmap a b d e f g h)) as (Hda & Hdk & Hdc & Hdl & Hdok)
    end.
    rewrite Hda, Hdk, Hdc, Hdl.
    unfold advance_sum, kerning_sum. cbn.
    split; [lia|]. split; [reflexivity|]. split; [eauto|]. split.
    + constructor; [exact I|]. apply Forall_app. split; [exact Hok|].
      constructor; [exact I | exact Hdok].
    + intros ->. reflexivity.
Qed.

Lemma text_events_obs noprint prev pen cs tr pen' :
  text_events font x y penY cR cG cB cA noprint prev pen cs tr pen' ->
  pen' = pen + advance_sum tr + kerning_sum tr
  /\ char_requests tr = map to_u32 cs
  /\ length (load_requests tr) = length cs
  /\ Forall (fun l => l.1.2 = FT_LOAD_RENDER) (load_requests tr)
  /\ Forall (kerning_lookup_ok font) tr
  /\ (noprint = true -> gx_stream tr = []).
Proof.
  induction 1 as [prev pen|prev pen c cs seg prev' pen' tr pen'' Hseg Htext IH].
  - cbn. repeat split; try lia; constructor.
  - destruct (glyph_events_obs _ _ _ _ _ _ _ Hseg)
      as (Hp & Hc & (idx & err & Hl) & Hok & Hgx).
    destruct IH as (Hp' & Hc' & Hl' & Hfl & Hok' & Hgx').
    rewrite advance_sum_app, kerning_sum_app, char_requests_app,
      load_requests_app, gx_stream_app, Hc, Hc', Hl.
    split; [lia|]. split; [reflexivity|]. split; [cbn; now rewrite Hl'|].
    split; [constructor; [reflexivity | exact Hfl]|].
    split; [apply Forall_app; auto|].
    intros Hn. now rewrite Hgx, Hgx'.
Qed.

End GlyphLoopFacts.

(** ** _PrintfTTFW *)

Section PrintfFacts.

Context {E : Type} `{FreeType E} `{LibC} `{ColourMacros}.

Lemma size_step fc fontSize (w : World E) :
  let r := call_FT_Set_Pixel_Sizes fc 0 fontSize w in
  let w' := if negb (r.1 =? 0) then (call_FT_Set_Pixel_Sizes fc 0 12 r.2).2 else r.2 in
  exists setup, extends w w' setup /\ size_events fc fontSize setup.
Proof.
  cbv zeta.
  pose proof (call_FT_Set_Pixel_Sizes_extends fc 0 fontSize w) as Hs1.
  destruct (call_FT_Set_Pixel_Sizes fc 0 fontSize w) as [err w1]. cbn [fst snd] in *.
  destruct (Z.eqb_spec err 0) as [->|Herr]; cbn [negb].
  - eexists. split; [exact Hs1 | constructor].
  - pose proof (call_FT_Set_Pixel_Sizes_extends fc 0 12 w1) as Hs2.
    eexists. split; [exact (extends_trans _ _ _ _ _ Hs1 Hs2)|].
    now apply se_fallback.
Qed.

(** A run of [_PrintfTTFW] on a live font and a string: it returns, its
    events are the size prologue followed by the per-character protocol
    from pen 0, and its result is the final pen as a [u32]. *)
Lemma PrintfTTFW_run x y myFont font utf32 fontSize color noprint (w : World E) :
  myFont <> NULL -> heap w !! myFont = Some font ->
  exists setup tr pen w',
    _PrintfTTFW x y myFont (Some utf32) fontSize color noprint w
    = Some (to_u32 pen, w')
    /\ extends w w' (setup ++ tr)
    /\ size_events (face font) fontSize setup
    /\ text_events font x y (to_s32 fontSize)
         (to_u8 (R color)) (to_u8 (G color)) (to_u8 (B color)) (to_u8 (A color))
         noprint 0 0 (wcs_chars utf32) tr pen.
Proof.
  intros Hnn Hfont. unfold _PrintfTTFW.
  apply Z.eqb_neq in Hnn. rewrite Hnn, Hfont. cbv zeta.
  pose proof (size_step (face font) fontSize w) as Hsize. cbv zeta in Hsize.
  destruct (call_FT_Set_Pixel_Sizes (face font) 0 fontSize w) as [err w1].
  cbn [fst snd] in Hsize.
  destruct Hsize as (setup & Hext1 & Hsetup).
  set (w2 := if negb (err =? 0)
             then (call_FT_Set_Pixel_Sizes (face font) 0 12 w1).2 else w1) in *.
  pose proof (glyph_loop_protocol font x y (to_s32 fontSize)
                (to_u8 (R color)) (to_u8 (G color)) (to_u8 (B color)) (to_u8 (A color))
                noprint utf32 0 0 w2) as Hloop.
  cbv zeta in Hloop. change (to_s32 0) with 0 in Hloop.
  destruct (glyph_loop font x y (to_s32 fontSize)
              (to_u8 (R color)) (to_u8 (G color)) (to_u8 (B color)) (to_u8 (A color))
              noprint utf32 0 0 w2) as [penX w3].
  destruct Hloop as (tr & pen & HpenX & Hext2 & Htext). cbn [fst snd] in *.
  exists setup, tr, pen, w3. subst penX. rewrite to_u32_s32.
  split; [reflexivity|]. split; [exact (extends_trans _ _ _ _ _ Hext1 Hext2)|].
  split; assumption.
Qed.


Lemma wcs_chars_no_nul utf32 : Forall (fun c => c <> 0) utf32 -> wcs_chars utf32 = utf32.
Proof.
  induction 1 as [|c l Hc _ IH]; [reflexivity|].
  cbn. apply Z.eqb_neq in Hc. now rewrite Hc, IH.
Qed.


(** C6.  Two-call sequence per character: a printing run takes the
    characters of the string in order and, for each, asks the engine for
    the glyph, rasterises it with [FT_Load_Glyph] and [FT_LOAD_RENDER], and
    only after a successful load sends the points of [DrawBitmap] at the
    pen, which advances afterwards; the log holds no other GX command. *)
Theorem PrintfTTFW_two_call_sequence x y myFont font utf32 fontSize color (w : World E) :
  myFont <> NULL -> heap w !! myFont = Some font ->
  exists setup tr pen r w',
    GRRLIB_PrintfTTFW x y myFont (Some utf32) fontSize color w = Some (r, w')
    /\ log w' = log w ++ setup ++ tr
    /\ size_events (face font) fontSize setup
    /\ gx_stream setup = []
    /\ text_events font x y (to_s32 fontSize)
         (to_u8 (R color)) (to_u8 (G color)) (to_u8 (B color)) (to_u8 (A color))
         false 0 0 (wcs_chars utf32) tr pen.
Proof.
  intros Hnn Hfont. unfold GRRLIB_PrintfTTFW.
  destruct (PrintfTTFW_run x y myFont font utf32 fontSize color false w Hnn Hfont)
    as (setup & tr & pen & w' & Hrun & (Hlog & _) & Hsetup & Htext).
  exists setup, tr, pen, (to_u32 pen), w'.
  split; [exact Hrun|]. split; [exact Hlog|]. split; [exact Hsetup|].
  split; [|exact Htext].
  destruct Hsetup; reflexivity.
Qed.

(** C10.  The glyph loop takes every character of a terminated wide
    string exactly once, in order, and ends: the run returns, the engine is
    asked for the glyph of each character and for one load per character,
    whatever width the pen has reached. *)
Theorem glyph_loop_every_character x y myFont font utf32 fontSize color noprint
    (w : World E) :
  myFont <> NULL -> heap w !! myFont = Some font ->
  exists setup tr r w',
    _PrintfTTFW x y myFont (Some utf32) fontSize color noprint w = Some (r, w')
    /\ log w' = log w ++ setup ++ tr
    /\ size_events (face font) fontSize setup
    /\ char_requests tr = map to_u32 (wcs_chars utf32)
    /\ length (load_requests tr) = length (wcs_chars utf32)
    /\ Forall (fun l => l.1.2 = FT_LOAD_RENDER) (load_requests tr)
    /\ (Forall (fun c => c <> 0) utf32 -> char_requests tr = map to_u32 utf32).
Proof.
  intros Hnn Hfont.
  destruct (PrintfTTFW_run x y myFont font utf32 fontSize color noprint w Hnn Hfont)
    as (setup & tr & pen & w' & Hrun & (Hlog & _) & Hsetup & Htext).
  destruct (text_events_obs _ _ _ _ _ _ _ _ _ _ _ _ _ _ Htext)
    as (_ & Hchars & Hloads & Hflags & _ & _).
  exists setup, tr, (to_u32 pen), w'.
  split; [exact Hrun|]. split; [exact Hlog|]. split; [exact Hsetup|].
  split; [exact Hchars|]. split; [exact Hloads|]. split; [exact Hflags|].
  intros Hnz. now rewrite Hchars, wcs_chars_no_nul.
Qed.

End PrintfFacts.

(** Runs on the demo platform. *)

Section PrintfRuns.

#[local] Existing Instances Demo.demo_engine Demo.demo_libc Demo.rgba.


Lemma PrintfTTFW_two_call_sequence_witness :
  exists setup tr pen r w',
    GRRLIB_PrintfTTFW 100 50 4096 (Some [65; 67; 66]) 2 4278190335 Demo.w0
    = Some (r, w')
    /\ log w' = log Demo.w0 ++ setup ++ tr
    /\ size_events (face Demo.a_font) 2 setup
    /\ gx_stream setup = []
    /\ text_events Demo.a_font 100 50 (to_s32 2)
         (to_u8 (R 4278190335)) (to_u8 (G 4278190335))
         (to_u8 (B 4278190335)) (to_u8 (A 4278190335))
         false 0 0 (wcs_chars [65; 67; 66]) tr pen.
Proof.
  apply (PrintfTTFW_two_call_sequence 100 50 4096 Demo.a_font).
  - vm_compute. lia.
  - vm_compute. reflexivity.
Defined.

Lemma glyph_loop_every_character_witness :
  exists setup tr r w',
    _PrintfTTFW 0 0 4096 (Some [65; 66; 67; 63; 65]) 1000000 0 true Demo.w0
    = Some (r, w')
    /\ log w' = log Demo.w0 ++ setup ++ tr
    /\ size_events (face Demo.a_font) 1000000 setup
    /\ char_requests tr = map to_u32 (wcs_chars [65; 66; 67; 63; 65])
    /\ length (load_requests tr) = length (wcs_chars [65; 66; 67; 63; 65])
    /\ Forall (fun l => l.1.2 = FT_LOAD_RENDER) (load_requests tr)
    /\ (Forall (fun c => c <> 0) [65; 66; 67; 63; 65] ->
        char_requests tr = map to_u32 [65; 66; 67; 63; 65]).
Proof.
  apply (glyph_loop_every_character 0 0 4096 Demo.a_font).
  - vm_compute. lia.
  - vm_compute. reflexivity.
Defined.

End PrintfRuns.

(** ** Measuring and printing *)

Section MeasureFacts.

Context {E : Type} `{FreeType E} `{LibC} `{ColourMacros}.

(** Printing and measuring move the pen and the engine alike: the loop
    with [noprint] set and any position and colour ends with the same pen
    and the same engine state as the printing loop. *)
Lemma glyph_loop_measure font penY x y cR cG cB cA x' y' cR' cG' cB' cA' utf32 :
  forall penX prev (w1 w2 : World E),
    ft w1 = ft w2 ->
    let r1 := glyph_loop font x y penY cR cG cB cA false utf32 penX prev w1 in
    let r2 := glyph_loop font x' y' penY cR' cG' cB' cA' true utf32 penX prev w2 in
    r1.1 = r2.1 /\ ft r1.2 = ft r2.2.
Proof.
  induction utf32 as [|c utf32' IH]; intros penX prev w1 w2 Hft; cbn [glyph_loop].
  { auto. }
  destruct (c =? 0); [auto|].
  destruct (call_FT_Get_Char_Index_ft (face font) (to_u32 c) w1 w2 Hft) as [Hi Hf1].
  destruct (call_FT_Get_Char_Index (face font) (to_u32 c) w1) as [idx w1a].
  destruct (call_FT_Get_Char_Index (face font) (to_u32 c) w2) as [idx' w2a].
  cbn [fst snd] in Hi, Hf1. subst idx'.
  assert (Hkern : exists penX' (w1b w2b : World E),
            (if kerning font && negb (prev =? 0) && negb (idx =? 0)
             then let '(delta, w') :=
                    call_FT_Get_Kerning (face font) prev idx FT_KERNING_DEFAULT w1a in
                  (to_s32 (penX + Z.shiftr (vec_x delta) 6), w')
             else (penX, w1a)) = (penX', w1b)
            /\ (if kerning font && negb (prev =? 0) && negb (idx =? 0)
                then let '(delta, w') :=
                       call_FT_Get_Kerning (face font) prev idx FT_KERNING_DEFAULT w2a in
                     (to_s32 (penX + Z.shiftr (vec_x delta) 6), w')
                else (penX, w2a)) = (penX', w2b)
            /\ ft w1b = ft w2b).
  { destruct (kerning font && negb (prev =? 0) && negb (idx =? 0)); [|eauto 6].
    destruct (call_FT_Get_Kerning_ft (face font) prev idx FT_KERNING_DEFAULT
                w1a w2a Hf1) as [Hd Hf2].
    destruct (call_FT_Get_Kerning (face font) prev idx FT_KERNING_DEFAULT w1a)
      as [delta w1b].
    destruct (call_FT_Get_Kerning (face font) prev idx FT_KERNING_DEFAULT w2a)
      as [delta' w2b].
    cbn [fst snd] in Hd, Hf2. subst delta'. eauto 6. }
  destruct Hkern as (penX' & w1b & w2b & -> & -> & Hf2).
  destruct (call_FT_Load_Glyph_ft (face font) idx FT_LOAD_RENDER w1b w2b Hf2)
    as [He Hf3].
  destruct (call_FT_Load_Glyph (face font) idx FT_LOAD_RENDER w1b) as [err w1c].
  destruct (call_FT_Load_Glyph (face font) idx FT_LOAD_RENDER w2b) as [err' w2c].
  cbn [fst snd] in He, Hf3. subst err'.
  destruct (negb (err =? 0)); [now apply IH|].
  cbn [negb]. rewrite Hf3. apply IH. exact Hf3.
Qed.

Lemma PrintfTTFW_measure x y myFont utf32 fontSize color (w : World E) :
  fst <$> _PrintfTTFW 0 0 myFont utf32 fontSize 0 true w
  = fst <$> _PrintfTTFW x y myFont utf32 fontSize color false w.
Proof.
  unfold _PrintfTTFW.
  destruct (myFont =? NULL); [reflexivity|].
  destruct utf32 as [utf32|]; [|reflexivity].
  destruct (heap w !! myFont) as [font|]; [|reflexivity].
  cbv zeta.
  destruct (call_FT_Set_Pixel_Sizes (face font) 0 fontSize w) as [err w1].
  set (w2 := if negb (err =? 0)
             then (call_FT_Set_Pixel_Sizes (face font) 0 12 w1).2 else w1).
  pose proof (glyph_loop_measure font (to_s32 fontSize) x y
                (to_u8 (R color)) (to_u8 (G color)) (to_u8 (B color)) (to_u8 (A color))
                0 0 (to_u8 (R 0)) (to_u8 (G 0)) (to_u8 (B 0)) (to_u8 (A 0))
                utf32 0 0 w2 w2 eq_refl) as [Hpen _].
  cbv zeta in Hpen.
  destruct (glyph_loop font x y _ _ _ _ _ false utf32 0 0 w2) as [p1 w3].
  destruct (glyph_loop font 0 0 _ _ _ _ _ true utf32 0 0 w2) as [p2 w3'].
  cbn [fst snd] in *. subst p2. reflexivity.
Qed.

(** Measuring sends nothing to GX. *)
Lemma PrintfTTFW_noprint_silent x y myFont utf32 fontSize color (w : World E) r w' :
  _PrintfTTFW x y myFont utf32 fontSize color true w = Some (r, w') ->
  exists tr, log w' = log w ++ tr /\ gx_stream tr = [].
Proof.
  intros Hrun.
  assert (Hsame : Some (r, w') = Some (0, w) ->
            exists tr, log w' = log w ++ tr /\ gx_stream tr = []).
  { intros [= _ ->]. exists []. now rewrite app_nil_r. }
  destruct (Z.eqb_spec myFont NULL) as [Hnull|Hnn].
  { apply Hsame. rewrite <- Hrun. unfold _PrintfTTFW.
    apply Z.eqb_eq in Hnull. now rewrite Hnull. }
  destruct utf32 as [utf32|].
  2:{ apply Hsame. rewrite <- Hrun. unfold _PrintfTTFW.
      apply Z.eqb_neq in Hnn. now rewrite Hnn. }
  destruct (heap w !! myFont) as [font|] eqn:Hfont.
  2:{ unfold _PrintfTTFW in Hrun. apply Z.eqb_neq in Hnn.
      rewrite Hnn, Hfont in Hrun. discriminate. }
  destruct (PrintfTTFW_run x y myFont font utf32 fontSize color true w Hnn Hfont)
    as (setup & tr & pen & w'' & Hrun' & (Hlog & _) & Hsetup & Htext).
  rewrite Hrun in Hrun'. injection Hrun' as _ <-.
  exists (setup ++ tr). split; [exact Hlog|].
  destruct (text_events_obs _ _ _ _ _ _ _ _ _ _ _ _ _ _ Htext)
    as (_ & _ & _ & _ & _ & Hgx).
  rewrite gx_stream_app, (Hgx eq_refl).
  destruct Hsetup; reflexivity.
Qed.

(** [_PrintfTTF] either returns 0 at once or hands a wide string, which
    depends on the font pointer and the text only, to [_PrintfTTFW]. *)
Lemma PrintfTTF_cases myFont string fontSize (w : World E) :
  exists o : option (option (list Z)),
    forall x y color noprint,
      _PrintfTTF x y myFont string fontSize color noprint w
      = match o with
        | None => Some (0, w)
        | Some utf32 => _PrintfTTFW x y myFont utf32 fontSize color noprint w
        end.
Proof.
  unfold _PrintfTTF.
  destruct (myFont =? NULL); [now exists None|].
  destruct string as [str|]; [|now exists None].
  cbv zeta.
  destruct ((mbstowcs None str 0).1 =? SIZE_MAX); [now exists None|].
  destruct (mbstowcs _ str _) as [n utf32].
  destruct (n >? 0); [|now exists None].
  now eexists (Some _).
Qed.

(** C1.  Measure-only mode: for every font pointer, text, size, position
    and colour, [GRRLIB_WidthTTFW] returns what [GRRLIB_PrintfTTFW] returns
    and [GRRLIB_WidthTTF] what [GRRLIB_PrintfTTF] returns, from the same
    world; and whatever a width function appends to the log holds no GX
    command.  The width functions return whenever the font pointer is
    [NULL] or live. *)
Theorem Width_matches_Printf x y myFont utf32 string fontSize color (w : World E) :
  fst <$> GRRLIB_WidthTTFW myFont utf32 fontSize w
  = fst <$> GRRLIB_PrintfTTFW x y myFont utf32 fontSize color w
  /\ fst <$> GRRLIB_WidthTTF myFont string fontSize w
     = fst <$> GRRLIB_PrintfTTF x y myFont string fontSize color w
  /\ (forall r w', GRRLIB_WidthTTFW myFont utf32 fontSize w = Some (r, w') ->
      exists tr, log w' = log w ++ tr /\ gx_stream tr = [])
  /\ (forall r w', GRRLIB_WidthTTF myFont string fontSize w = Some (r, w') ->
      exists tr, log w' = log w ++ tr /\ gx_stream tr = [])
  /\ (myFont = NULL \/ is_Some (heap w !! myFont) ->
      is_Some (GRRLIB_WidthTTFW myFont utf32 fontSize w)
      /\ is_Some (GRRLIB_WidthTTF myFont string fontSize w)).
Proof.
  unfold GRRLIB_WidthTTFW, GRRLIB_PrintfTTFW, GRRLIB_WidthTTF, GRRLIB_PrintfTTF.
  destruct (PrintfTTF_cases myFont string fontSize w) as [o Ho].
  assert (Hsome : forall u, myFont = NULL \/ is_Some (heap w !! myFont) ->
            is_Some (_PrintfTTFW 0 0 myFont u fontSize 0 true w)).
  { intros u Hfont. destruct (Z.eqb_spec myFont NULL) as [Hnull|Hnn].
    - unfold _PrintfTTFW. apply Z.eqb_eq in Hnull. rewrite Hnull. eauto.
    - destruct u as [u|].
      + destruct Hfont as [?|[font Hfont]]; [contradiction|].
        destruct (PrintfTTFW_run 0 0 myFont font u fontSize 0 true w Hnn Hfont)
          as (? & ? & ? & ? & -> & _). eauto.
      + unfold _PrintfTTFW. apply Z.eqb_neq in Hnn. rewrite Hnn. eauto. }
  split; [apply PrintfTTFW_measure|]. rewrite !Ho.
  split; [destruct o; [apply PrintfTTFW_measure | reflexivity]|].
  split; [intros r w'; apply PrintfTTFW_noprint_silent|].
  split.
  - intros r w'. destruct o as [u|].
    + apply PrintfTTFW_noprint_silent.
    + intros [= _ ->]. exists []. now rewrite app_nil_r.
  - intros Hfont. split; [now apply Hsome|].
    destruct o as [u|]; [now apply Hsome | eauto].
Qed.

(** C8.  Degenerate input: with a [NULL] font or a [NULL] string the four
    functions return 0 and leave the world, hence the GX stream, as it
    was; the [char*] functions do so too for a text that is not a valid
    multibyte sequence, which is when [mbstowcs] answers [(size_t) -1]. *)
Theorem degenerate_input_returns_zero x y myFont utf32 string fontSize color
    (w : World E) :
  (myFont = NULL \/ utf32 = None ->
   GRRLIB_PrintfTTFW x y myFont utf32 fontSize color w = Some (0, w)
   /\ GRRLIB_WidthTTFW myFont utf32 fontSize w = Some (0, w))
  /\ (myFont = NULL \/ string = None
      \/ (exists str, string = Some str /\ mb_decode str = None) ->
      GRRLIB_PrintfTTF x y myFont string fontSize color w = Some (0, w)
      /\ GRRLIB_WidthTTF myFont string fontSize w = Some (0, w))
  /\ (forall str, mb_decode str = None -> (mbstowcs None str 0).1 = SIZE_MAX).
Proof.
  unfold GRRLIB_WidthTTFW, GRRLIB_PrintfTTFW, GRRLIB_WidthTTF, GRRLIB_PrintfTTF.
  assert (Hmb : forall str, mb_decode str = None -> (mbstowcs None str 0).1 = SIZE_MAX).
  { intros str Hstr. unfold mbstowcs. now rewrite Hstr. }
  split; [|split; [|exact Hmb]].
  - unfold _PrintfTTFW. intros [->| ->].
    + now change (NULL =? NULL) with true.
    + now destruct (myFont =? NULL).
  - unfold _PrintfTTF. intros [->|[->|(str & -> & Hstr)]].
    + now change (NULL =? NULL) with true.
    + now destruct (myFont =? NULL).
    + destruct (myFont =? NULL); [auto|]. cbv zeta.
      rewrite (Hmb str Hstr), Z.eqb_refl. auto.
Qed.

End MeasureFacts.

Section MeasureRuns.

#[local] Existing Instances Demo.demo_engine Demo.demo_libc Demo.rgba.

Lemma Width_matches_Printf_witness :
  fst <$> GRRLIB_WidthTTFW 4096 (Some [65; 66; 67; 63; 65]) 2 Demo.w0 = Some 6
  /\ fst <$> GRRLIB_PrintfTTFW 100 50 4096 (Some [65; 66; 67; 63; 65]) 2 4278190335
               Demo.w0 = Some 6
  /\ is_Some (GRRLIB_WidthTTF 4096 (Some [65; 66; 0]) 2 Demo.w0).
Proof.
  destruct (Width_matches_Printf 100 50 4096 (Some [65; 66; 67; 63; 65])
              (Some [65; 66; 0]) 2 4278190335 Demo.w0)
    as (Heq & _ & _ & _ & Hsome).
  split; [vm_compute; reflexivity|].
  split; [rewrite <- Heq; vm_compute; reflexivity|].
  apply Hsome. right. vm_compute. eauto.
Defined.

Lemma degenerate_input_returns_zero_witness :
  GRRLIB_PrintfTTF 100 50 4096 (Some [65; 200; 66; 0]) 2 4278190335 Demo.w0
  = Some (0, Demo.w0)
  /\ GRRLIB_WidthTTFW NULL (Some [65]) 2 Demo.w0 = Some (0, Demo.w0).
Proof.
  destruct (degenerate_input_returns_zero 100 50 4096 (Some [65]) (Some [65; 200; 66; 0])
              2 4278190335 Demo.w0) as (_ & Hmb & _).
  destruct (degenerate_input_returns_zero 100 50 NULL (Some [65]) None
              2 4278190335 Demo.w0) as (Hnull & _ & _).
  split.
  - apply Hmb. right. right. exists [65; 200; 66; 0].
    split; [reflexivity | vm_compute; reflexivity].
  - apply Hnull. left. reflexivity.
Defined.

End MeasureRuns.

(** ** Multibyte text *)

Section MultibyteFacts.

Context {E : Type} `{FreeType E} `{LibC} `{ColourMacros}.

Lemma wcs_chars_terminated ws : wcs_chars (ws ++ [0]) = wcs_chars ws.
Proof.
  induction ws as [|c ws IH]; [reflexivity|].
  cbn. destruct (c =? 0); [reflexivity | now rewrite IH].
Qed.

(** The conversion buffer of [_PrintfTTF] after the second [mbstowcs] and
    the store of the terminator: the decoded text and a zero. *)
Lemma PrintfTTF_decoded x y myFont str ws fontSize color noprint (w : World E) :
  myFont <> NULL -> mb_decode str = Some ws ->
  Z.of_nat (length ws) < 2 ^ 30 - 1 ->
  _PrintfTTF x y myFont (Some str) fontSize color noprint w
  = match ws with
    | [] => Some (0, w)
    | _ => _PrintfTTFW x y myFont (Some (ws ++ [0])) fontSize color noprint w
    end.
Proof.
  intros Hnn Hdec Hlen. unfold _PrintfTTF, mbstowcs.
  apply Z.eqb_neq in Hnn. rewrite Hnn, Hdec. cbn [fst].
  set (len := Z.of_nat (length ws)) in *.
  assert (Hne : (len =? SIZE_MAX) = false).
  { apply Z.eqb_neq. unfold SIZE_MAX. lia. }
  rewrite Hne. cbv zeta.
  rewrite (to_u32_id (len + 1)) by (unfold UINT_MAX; lia).
  rewrite to_u32_id by (unfold UINT_MAX, sizeof_wchar_t; lia).
  unfold alloca_wchar. rewrite Z.div_mul by (unfold sizeof_wchar_t; lia).
  assert (Hcells : Z.to_nat (len + 1) = S (length ws)) by lia.
  rewrite Hcells.
  rewrite take_ge by (rewrite length_app; cbn; lia).
  rewrite drop_ge by (rewrite length_replicate, length_app; cbn; lia).
  rewrite app_nil_r.
  replace (Z.min len (len + 1)) with len by lia.
  destruct ws as [|c ws'].
  { reflexivity. }
  assert (Hpos : (len >? 0) = true).
  { apply Z.gtb_lt. unfold len. cbn [length]. lia. }
  rewrite Hpos. cbn [fmap option_fmap option_map].
  replace (Z.to_nat (len + 1 - 1)) with (length (c :: ws')) by lia.
  rewrite insert_app_r_alt by lia.
  rewrite Nat.sub_diag. reflexivity.
Qed.

(** C4.  No conversion of its own: whatever decoder the C library brings
    for the locale, [GRRLIB_PrintfTTF] and [GRRLIB_WidthTTF] hand its
    output, unchanged and terminated, to the wide-character functions, and
    return 0 when it rejects the text or finds it empty. *)
Theorem PrintfTTF_no_own_conversion x y myFont str fontSize color (w : World E) :
  myFont <> NULL ->
  (mb_decode str = None ->
   GRRLIB_PrintfTTF x y myFont (Some str) fontSize color w = Some (0, w)
   /\ GRRLIB_WidthTTF myFont (Some str) fontSize w = Some (0, w))
  /\ (forall ws, mb_decode str = Some ws -> Z.of_nat (length ws) < 2 ^ 30 - 1 ->
      wcs_chars (ws ++ [0]) = wcs_chars ws
      /\ GRRLIB_PrintfTTF x y myFont (Some str) fontSize color w
         = match ws with
           | [] => Some (0, w)
           | _ => GRRLIB_PrintfTTFW x y myFont (Some (ws ++ [0])) fontSize color w
           end
      /\ GRRLIB_WidthTTF myFont (Some str) fontSize w
         = match ws with
           | [] => Some (0, w)
           | _ => GRRLIB_WidthTTFW myFont (Some (ws ++ [0])) fontSize w
           end).
Proof.
  intros Hnn.
  unfold GRRLIB_PrintfTTF, GRRLIB_WidthTTF, GRRLIB_PrintfTTFW, GRRLIB_WidthTTFW.
  split.
  - intros Hdec. unfold _PrintfTTF, mbstowcs.
    apply Z.eqb_neq in Hnn. rewrite Hnn, Hdec. cbn [fst].
    rewrite Z.eqb_refl. auto.
  - intros ws Hdec Hlen. split; [apply wcs_chars_terminated|].
    split; now apply PrintfTTF_decoded.
Qed.

End MultibyteFacts.

Section MultibyteRuns.

#[local] Existing Instances Demo.demo_engine Demo.demo_libc Demo.rgba.

Lemma PrintfTTF_no_own_conversion_witness :
  GRRLIB_PrintfTTF 100 50 4096 (Some [65; 66; 0; 67]) 2 4278190335 Demo.w0
  = GRRLIB_PrintfTTFW 100 50 4096 (Some [65; 66; 0]) 2 4278190335 Demo.w0.
Proof.
  destruct (PrintfTTF_no_own_conversion 100 50 4096 [65; 66; 0; 67] 2 4278190335 Demo.w0)
    as [_ Hdec]; [vm_compute; lia|].
  destruct (Hdec [65; 66]) as (_ & Hp & _);
    [vm_compute; reflexivity | vm_compute; reflexivity|].
  exact Hp.
Defined.

End MultibyteRuns.

(** ** Loading and freeing a font *)

Section HandleFacts.

Context {E : Type} `{FreeType E} `{LibC} `{ColourMacros}.

(** Font loading while the allocator has memory: a returning
    [GRRLIB_LoadTTF] returns [NULL] exactly when [FT_New_Memory_Face]
    reports an error; when the face is created and [malloc] succeeds, it
    returns a non-[NULL] pointer to a record whose [face] is the new face
    and whose [kerning] is [FT_HAS_KERNING] of that face. *)
Theorem LoadTTF_handle file_base file_size (w : World E) :
  let r := FT_New_Memory_Face (ftLibrary w) file_base file_size 0 (ft w) in
  let err := r.1.1 in
  let Face := r.1.2 in
  (forall p w', GRRLIB_LoadTTF file_base file_size w = Some (p, w') ->
     (p = NULL <-> err <> 0))
  /\ (err <> 0 ->
      exists w', GRRLIB_LoadTTF file_base file_size w = Some (NULL, w')
                 /\ heap w' = heap w)
  /\ (err = 0 -> malloc (heap w) sizeof_GRRLIB_ttfFont <> NULL ->
      exists p w',
        GRRLIB_LoadTTF file_base file_size w = Some (p, w')
        /\ p <> NULL
        /\ heap w' !! p = Some {| face := Face; kerning := FT_HAS_KERNING Face (ft w') |}
        /\ ft w' = r.2).
Proof.
  cbv zeta. unfold GRRLIB_LoadTTF.
  destruct (FT_New_Memory_Face (ftLibrary w) file_base file_size 0 (ft w))
    as [[err Face] e].
  cbn [fst snd emit with_ft with_heap heap ft log ftLibrary].
  destruct (Z.eqb_spec err 0) as [Herr|Herr]; cbn [negb].
  - destruct (Z.eqb_spec (malloc (heap w) sizeof_GRRLIB_ttfFont) NULL) as [Hm|Hm].
    + split; [discriminate|]. split; [contradiction|]. intros _ Hm'. contradiction.
    + split; [intros p w' [= <- _]; tauto|]. split; [contradiction|].
      intros _ _. eexists _, _. split; [reflexivity|]. split; [exact Hm|].
      cbn [heap ft]. split; [apply lookup_insert_eq | reflexivity].
  - split; [intros p w' [= <- _]; tauto|]. split; [|contradiction].
    intros _. eexists. split; reflexivity.
Qed.

(** C9.  [GRRLIB_FreeTTF] on [NULL] changes nothing; on a live handle it
    calls [FT_Done_Face] on the handle's face and then frees the handle. *)
Theorem FreeTTF_releases_face_then_handle myFont (w : World E) :
  (myFont = NULL -> GRRLIB_FreeTTF myFont w = Some w)
  /\ (forall font, myFont <> NULL -> heap w !! myFont = Some font ->
      exists w',
        GRRLIB_FreeTTF myFont w = Some w'
        /\ log w' = log w ++ [EvFT_Done_Face (face font); Evfree myFont]
        /\ heap w' = delete myFont (heap w)
        /\ ft w' = FT_Done_Face (face font) (ft w)).
Proof.
  unfold GRRLIB_FreeTTF. split.
  - intros ->. reflexivity.
  - intros font Hnn Hfont. apply Z.eqb_neq in Hnn. rewrite Hnn, Hfont. cbn [negb].
    eexists. split; [reflexivity|].
    cbn [emit with_ft with_heap heap ft log ftLibrary].
    rewrite <- app_assoc. auto.
Qed.

End HandleFacts.

Section HandleRuns.

#[local] Existing Instances Demo.demo_engine Demo.demo_libc Demo.rgba.

Lemma LoadTTF_handle_witness :
  (exists w', GRRLIB_LoadTTF [] 0 Demo.w_empty = Some (NULL, w')
              /\ heap w' = heap Demo.w_empty)
  /\ (exists p w',
        GRRLIB_LoadTTF [0; 1; 0; 0] 4 Demo.w_empty = Some (p, w')
        /\ p <> NULL
        /\ heap w' !! p = Some {| face := 7; kerning := FT_HAS_KERNING 7 (ft w') |}
        /\ ft w' = ft Demo.w_empty).
Proof.
  split.
  - destruct (LoadTTF_handle [] 0 Demo.w_empty) as (_ & Hfail & _).
    apply Hfail. vm_compute. lia.
  - destruct (LoadTTF_handle [0; 1; 0; 0] 4 Demo.w_empty) as (_ & _ & Hok).
    apply Hok; [reflexivity | vm_compute; lia].
Defined.

Lemma FreeTTF_releases_face_then_handle_witness :
  GRRLIB_FreeTTF NULL Demo.w0 = Some Demo.w0
  /\ exists w',
       GRRLIB_FreeTTF 4096 Demo.w0 = Some w'
       /\ log w' = log Demo.w0 ++ [EvFT_Done_Face (face Demo.a_font); Evfree 4096]
       /\ heap w' = delete 4096 (heap Demo.w0)
       /\ ft w' = FT_Done_Face (face Demo.a_font) (ft Demo.w0).
Proof.
  split.
  - apply (FreeTTF_releases_face_then_handle NULL Demo.w0). reflexivity.
  - apply (FreeTTF_releases_face_then_handle 4096 Demo.w0).
    + vm_compute. lia.
    + vm_compute. reflexivity.
Defined.

(** C7.  Font loading is to return a handle, or [NULL] when the font
    cannot be loaded.  It does neither when the face is created and
    [malloc] has no memory for the handle: the result of [malloc] is not
    tested and [myFont->kerning] is stored through [NULL]. *)
Example LoadTTF_out_of_memory :
  (FT_New_Memory_Face (ftLibrary Demo.w_empty) [0; 1; 0; 0] 4 0 (ft Demo.w_empty)).1
  = (0, 7)
  /\ @malloc Demo.full_libc (heap Demo.w_empty) sizeof_GRRLIB_ttfFont = NULL
  /\ @GRRLIB_LoadTTF _ Demo.demo_engine Demo.full_libc [0; 1; 0; 0] 4 Demo.w_empty
     = None.
Proof. repeat split. Qed.

End HandleRuns.

(** ** More about DrawBitmap *)

Section DrawBitmapMore.

(** Up to 2^24 in magnitude the conversion to [f32] is exact. *)
Lemma to_f32_exact z : - 2 ^ 24 <= z <= 2 ^ 24 -> to_f32 z = z.
Proof.
  intros Hz. unfold to_f32. cbv zeta.
  destruct (Z.ltb_spec (Z.abs z) (2 ^ 24)) as [Hlt|Hge]; [reflexivity|].
  assert (Hcase : z = 2 ^ 24 \/ z = - 2 ^ 24) by lia.
  destruct Hcase as [-> | ->]; vm_compute; reflexivity.
Qed.

Lemma bitmap_ok_cells bmp : bitmap_ok bmp -> width bmp * rows bmp <= UINT_MAX + 1.
Proof. intros (_ & _ & Hlen & Hmax & _). lia. Qed.

Lemma for_lt_nil {X : Type} (body : Z -> Z -> list X) hi n :
  (forall i p, body i p = []) -> forall i p, for_lt n i p hi body = [].
Proof.
  intros Hbody. induction n as [|n IH]; intros i p; simpl; [reflexivity|].
  destruct (i <? hi); [|reflexivity]. now rewrite Hbody, IH.
Qed.

Lemma for_lt_map {X Y : Type} (f : X -> Y) (body : Z -> Z -> list X) hi n :
  forall i p,
    map f (for_lt n i p hi body) = for_lt n i p hi (fun i p => map f (body i p)).
Proof.
  induction n as [|n IH]; intros i p; simpl; [reflexivity|].
  destruct (i <? hi); [|reflexivity]. now rewrite map_app, IH.
Qed.

(** An unsigned sum that passes [INT_MAX] comes back negative. *)
Lemma to_s32_wrap z :
  INT_MAX < z <= INT_MAX + 2 ^ 32 -> to_s32 z = z - 2 ^ 32.
Proof.
  unfold INT_MAX, to_s32. intros Hz.
  rewrite <- (Z_mod_plus_full (z + 2 ^ 31) (-1) (2 ^ 32)).
  rewrite Z.mod_small; lia.
Qed.

Lemma points_flat_point_cmds (pts : list GXPoint) :
  points (flat_map point_cmds pts) = pts.
Proof.
  rewrite <- (app_nil_r (flat_map _ _)), points_point_cmds. apply app_nil_r.
Qed.

Lemma points_DrawBitmap bmp offset top cR cG cB cA :
  points (DrawBitmap bmp offset top cR cG cB cA)
  = for_lt (Z.to_nat (to_s32 (offset + width bmp) - offset)) offset 0
           (to_s32 (offset + width bmp))
      (fun i p =>
         for_lt (Z.to_nat (to_s32 (top + rows bmp) - top)) top 0
                (to_s32 (top + rows bmp))
           (fun j q => [pixel_point bmp i p j q cR cG cB cA])).
Proof.
  rewrite DrawBitmap_pixel_points, <- (app_nil_r (flat_map _ _)).
  rewrite points_point_cmds. apply app_nil_r.
Qed.

(** X1.  An empty glyph bitmap draws nothing: with no columns or no rows
    [DrawBitmap] sends no command. *)
Theorem DrawBitmap_empty bmp offset top cR cG cB cA :
  INT_MIN <= offset <= INT_MAX -> INT_MIN <= top <= INT_MAX ->
  width bmp = 0 \/ rows bmp = 0 ->
  DrawBitmap bmp offset top cR cG cB cA = [].
Proof.
  intros Ho Ht [Hw|Hr]; unfold DrawBitmap.
  - rewrite Hw, Z.add_0_r, to_s32_id by assumption.
    now rewrite Z.sub_diag.
  - apply for_lt_nil. intros i p.
    rewrite Hr, Z.add_0_r, to_s32_id by assumption.
    now rewrite Z.sub_diag.
Qed.

Lemma DrawBitmap_empty_witness :
  DrawBitmap {| rows := 0; width := 3; buffer := [] |} 10 20 1 2 3 255 = [].
Proof.
  apply DrawBitmap_empty; [unfold INT_MIN, INT_MAX; lia ..|].
  right. reflexivity.
Defined.

(** X2.  Off the end of [int]: when [offset + width] or [top + rows]
    passes [INT_MAX], the loop bound wraps below the start value and
    [DrawBitmap] sends no command at all. *)
Theorem DrawBitmap_wraps_to_nothing bmp offset top cR cG cB cA :
  INT_MIN <= offset <= INT_MAX -> INT_MIN <= top <= INT_MAX ->
  0 <= width bmp <= UINT_MAX -> 0 <= rows bmp <= UINT_MAX ->
  INT_MAX < offset + width bmp \/ INT_MAX < top + rows bmp ->
  DrawBitmap bmp offset top cR cG cB cA = [].
Proof.
  unfold INT_MIN, INT_MAX, UINT_MAX. intros Ho Ht Hw Hr [Hx|Hy]; unfold DrawBitmap.
  - rewrite to_s32_wrap by (unfold INT_MAX; lia).
    replace (Z.to_nat (offset + width bmp - 2 ^ 32 - offset)) with O by lia.
    reflexivity.
  - apply for_lt_nil. intros i p.
    rewrite (to_s32_wrap (top + rows bmp)) by (unfold INT_MAX; lia).
    replace (Z.to_nat (top + rows bmp - 2 ^ 32 - top)) with O by lia.
    reflexivity.
Qed.

Lemma DrawBitmap_wraps_to_nothing_witness :
  DrawBitmap Demo.a_bitmap 2147483646 20 1 2 3 255 = [].
Proof.
  apply DrawBitmap_wraps_to_nothing;
    [unfold INT_MIN, INT_MAX, UINT_MAX; simpl; lia ..|].
  left. unfold INT_MAX. simpl. lia.
Defined.

(** X3.  The composite is subtractive: for a coverage byte [b] and a text
    alpha [cA] the drawn alpha exceeds neither, is [b] itself for an
    opaque text, and is 0 exactly when [b + cA <= 255]; every point of a
    blit has an alpha of at most [cA]. *)
Theorem alpha_is_subtractive bmp offset top cR cG cB cA :
  0 <= cA <= 255 ->
  (forall b, 0 <= b <= 255 ->
     pixel_alpha b cA <= b /\ pixel_alpha b cA <= cA
     /\ pixel_alpha b 255 = b
     /\ (pixel_alpha b cA = 0 <-> b + cA <= 255))
  /\ Forall (fun pt => 0 <= pt_a pt <= cA)
            (points (DrawBitmap bmp offset top cR cG cB cA)).
Proof.
  intros HcA. split.
  - intros b Hb. rewrite !pixel_alpha_bytes by lia. lia.
  - rewrite points_DrawBitmap.
    apply for_lt_Forall. intros i p. apply for_lt_Forall. intros j q.
    constructor; [|constructor]. cbn [pixel_point pt_a].
    pose proof (sample_byte bmp (to_u32 (q * width bmp + p))) as Hb.
    rewrite pixel_alpha_bytes by assumption.
    rewrite to_u8_id; lia.
Qed.

Lemma alpha_is_subtractive_witness :
  pixel_alpha 127 128 = 0 /\ pixel_alpha 200 255 = 200.
Proof.
  destruct (alpha_is_subtractive Demo.a_bitmap 0 0 0 0 0 128) as [H128 _]; [lia|].
  destruct (alpha_is_subtractive Demo.a_bitmap 0 0 0 0 0 255) as [H255 _]; [lia|].
  split.
  - apply (H128 127); lia.
  - apply (H255 200); lia.
Defined.

(** X4.  Where the points of a glyph fall depends on its size and place
    only: two blits of bitmaps with the same width and rows, each with a
    buffer that holds its cells, at the same place send their points to
    the same positions, in the same order, whatever the bytes and the
    colours. *)
Theorem DrawBitmap_positions bmp bmp' offset top cR cG cB cA cR' cG' cB' cA' :
  bitmap_ok bmp -> bitmap_ok bmp' ->
  width bmp = width bmp' -> rows bmp = rows bmp' ->
  map pt_pos (points (DrawBitmap bmp offset top cR cG cB cA))
  = map pt_pos (points (DrawBitmap bmp' offset top cR' cG' cB' cA')).
Proof.
  intros _ _ Hw Hr. rewrite !points_DrawBitmap, !for_lt_map, Hw, Hr.
  apply for_lt_ext. intros i p. rewrite !for_lt_map. reflexivity.
Qed.

Lemma DrawBitmap_positions_witness :
  map pt_pos (points (DrawBitmap Demo.a_bitmap 10 20 1 2 3 255))
  = map pt_pos (points (DrawBitmap {| rows := 2; width := 2; buffer := [7; 7; 7; 7] |}
                          10 20 0 0 0 0)).
Proof.
  apply DrawBitmap_positions; try reflexivity;
    (unfold bitmap_ok, UINT_MAX; simpl;
     repeat split; try lia; repeat constructor; lia).
Defined.

(** X5.  Moving a glyph moves its points: drawn [(dx, dy)] further, with
    both places within 2^24 of the origin, where the conversion of the
    coordinates to [f32] is exact, the same points appear shifted by
    [(dx, dy)], colours unchanged. *)
Theorem DrawBitmap_translate bmp offset top dx dy cR cG cB cA :
  bitmap_ok bmp ->
  - 2 ^ 24 <= offset -> offset + width bmp <= 2 ^ 24 + 1 ->
  - 2 ^ 24 <= top -> top + rows bmp <= 2 ^ 24 + 1 ->
  - 2 ^ 24 <= offset + dx -> offset + dx + width bmp <= 2 ^ 24 + 1 ->
  - 2 ^ 24 <= top + dy -> top + dy + rows bmp <= 2 ^ 24 + 1 ->
  points (DrawBitmap bmp (offset + dx) (top + dy) cR cG cB cA)
  = map (shift_point dx dy) (points (DrawBitmap bmp offset top cR cG cB cA)).
Proof.
  intros Hok Ho Hxm Ht Hym Ho' Hxm' Ht' Hym'.
  pose proof (bitmap_ok_cells bmp Hok) as Hsz.
  destruct Hok as ((Hw & _) & (Hr & _) & _).
  rewrite !DrawBitmap_cells by (unfold INT_MIN, INT_MAX in *; lia).
  rewrite !points_flat_point_cmds.
  rewrite map_map. apply map_ext_in. intros [p q] Hin.
  apply list_elem_of_In, cells_elem in Hin.
  unfold cell_point, shift_point. cbn [pt_x pt_y pt_z pt_r pt_g pt_b pt_a].
  rewrite !to_f32_exact by lia.
  f_equal; lia.
Qed.

Lemma DrawBitmap_translate_witness :
  points (DrawBitmap Demo.a_bitmap (10 + 5) (20 + -3) 1 2 3 255)
  = map (shift_point 5 (-3)) (points (DrawBitmap Demo.a_bitmap 10 20 1 2 3 255)).
Proof.
  apply DrawBitmap_translate;
    [unfold bitmap_ok, UINT_MAX; simpl;
     repeat split; try lia; repeat constructor; lia
    | simpl; lia ..].
Defined.

(** X6.  A blit reads the first [width * rows] bytes of the buffer and no
    others: bitmaps of the same size whose buffers agree on that prefix
    are drawn alike. *)
Theorem DrawBitmap_reads_prefix bmp bmp' offset top cR cG cB cA :
  width bmp' = width bmp -> rows bmp' = rows bmp ->
  take (Z.to_nat (width bmp * rows bmp)) (buffer bmp')
  = take (Z.to_nat (width bmp * rows bmp)) (buffer bmp) ->
  0 <= width bmp -> 0 <= rows bmp ->
  width bmp * rows bmp <= UINT_MAX + 1 ->
  INT_MIN <= offset -> offset + width bmp <= INT_MAX ->
  INT_MIN <= top -> top + rows bmp <= INT_MAX ->
  DrawBitmap bmp' offset top cR cG cB cA = DrawBitmap bmp offset top cR cG cB cA.
Proof.
  intros Hw' Hr' Hbuf Hw Hr Hsz Ho Hxm Ht Hym.
  rewrite (DrawBitmap_cells bmp) by assumption.
  rewrite (DrawBitmap_cells bmp') by (rewrite ?Hw', ?Hr'; assumption).
  rewrite Hw', Hr'. f_equal.
  apply map_ext_in. intros [p q] Hin.
  apply list_elem_of_In, cells_elem in Hin.
  unfold cell_point, sample. rewrite Hw'. do 3 f_equal.
  assert (Hidx : (Z.to_nat (q * width bmp + p) < Z.to_nat (width bmp * rows bmp))%nat)
    by nia.
  rewrite !nth_lookup.
  rewrite <- (lookup_take_lt (buffer bmp') _ _ Hidx).
  rewrite <- (lookup_take_lt (buffer bmp) _ _ Hidx).
  now rewrite Hbuf.
Qed.

Lemma DrawBitmap_reads_prefix_witness :
  DrawBitmap {| rows := 2; width := 2; buffer := [0; 100; 200; 255; 9; 9] |}
             10 20 1 2 3 255
  = DrawBitmap Demo.a_bitmap 10 20 1 2 3 255.
Proof.
  apply DrawBitmap_reads_prefix;
    try reflexivity; unfold INT_MIN, INT_MAX, UINT_MAX; simpl; lia.
Defined.

End DrawBitmapMore.

(** ** More about printing and measuring *)

Section PrintMore.

Context {E : Type} `{FreeType E} `{LibC} `{ColourMacros}.

Lemma forallb_render_gx cmds : forallb is_render_event (map EvGX cmds) = true.
Proof. induction cmds as [|c l IH]; [reflexivity | exact IH]. Qed.

Lemma text_events_render font x y penY cR cG cB cA noprint prev pen cs tr pen' :
  text_events font x y penY cR cG cB cA noprint prev pen cs tr pen' ->
  forallb is_render_event tr = true.
Proof.
  induction 1 as [|prev pen c cs seg prev' pen' tr pen'' Hseg _ IH]; [reflexivity|].
  rewrite forallb_app, IH, andb_true_r.
  assert (Hk : forall p i kevs kpx,
            kern_events font p i kevs kpx -> forallb is_render_event kevs = true).
  { intros p i kevs kpx [delta ? ? ?|?]; reflexivity. }
  destruct Hseg as [idx kevs kpx err slot Hkern _|idx kevs kpx slot Hkern];
    cbn [forallb is_render_event andb]; rewrite !forallb_app, (Hk _ _ _ _ Hkern).
  - reflexivity.
  - destruct noprint; cbn [forallb is_render_event andb]; [reflexivity|].
    apply forallb_render_gx.
Qed.

(** What a run of [_PrintfTTFW] does to the world. *)
Lemma PrintfTTFW_effects x y myFont utf32 fontSize color noprint (w : World E) r w' :
  _PrintfTTFW x y myFont utf32 fontSize color noprint w = Some (r, w') ->
  heap w' = heap w /\ ftLibrary w' = ftLibrary w
  /\ exists tr, log w' = log w ++ tr /\ forallb is_render_event tr = true.
Proof.
  intros Hrun.
  assert (Hsame : Some (r, w') = Some (0, w) ->
            heap w' = heap w /\ ftLibrary w' = ftLibrary w
            /\ exists tr, log w' = log w ++ tr /\ forallb is_render_event tr = true).
  { intros [= _ ->]. split; [reflexivity|]. split; [reflexivity|].
    exists []. now rewrite app_nil_r. }
  destruct (Z.eqb_spec myFont NULL) as [Hnull|Hnn].
  { apply Hsame. rewrite <- Hrun. unfold _PrintfTTFW.
    apply Z.eqb_eq in Hnull. now rewrite Hnull. }
  destruct utf32 as [u|].
  2:{ apply Hsame. rewrite <- Hrun. unfold _PrintfTTFW.
      apply Z.eqb_neq in Hnn. now rewrite Hnn. }
  destruct (heap w !! myFont) as [font|] eqn:Hfont.
  2:{ unfold _PrintfTTFW in Hrun. apply Z.eqb_neq in Hnn.
      rewrite Hnn, Hfont in Hrun. discriminate. }
  destruct (PrintfTTFW_run x y myFont font u fontSize color noprint w Hnn Hfont)
    as (setup & tr & pen & w'' & Hrun' & (Hlog & Hheap & Hlib) & Hsetup & Htext).
  rewrite Hrun in Hrun'. injection Hrun' as _ <-.
  split; [exact Hheap|]. split; [exact Hlib|].
  exists (setup ++ tr). split; [exact Hlog|].
  rewrite forallb_app, (text_events_render _ _ _ _ _ _ _ _ _ _ _ _ _ _ Htext).
  destruct Hsetup; reflexivity.
Qed.

(** X7.  Rendering leaves the fonts alone: whatever [_PrintfTTFW] or
    [_PrintfTTF] returns, the heap of handles and the library handle are
    as before; and the calls [_PrintfTTFW] makes are sizing, glyph lookup,
    kerning, glyph loading and GX commands only: it creates no face,
    destroys none, and calls neither [malloc] nor [free]. *)
Theorem rendering_keeps_handles x y myFont utf32 string fontSize color noprint
    (w : World E) :
  (forall r w',
     _PrintfTTFW x y myFont utf32 fontSize color noprint w = Some (r, w') ->
     heap w' = heap w /\ ftLibrary w' = ftLibrary w
     /\ exists tr, log w' = log w ++ tr /\ forallb is_render_event tr = true)
  /\ (forall r w',
        _PrintfTTF x y myFont string fontSize color noprint w = Some (r, w') ->
        heap w' = heap w /\ ftLibrary w' = ftLibrary w).
Proof.
  split; [intros r w' Hrun; now apply PrintfTTFW_effects in Hrun|].
  intros r w' Hrun.
  destruct (PrintfTTF_cases myFont string fontSize w) as [[u|] Ho];
    rewrite Ho in Hrun.
  - apply PrintfTTFW_effects in Hrun. tauto.
  - injection Hrun as _ <-. auto.
Qed.

(** *** Measuring and printing make the same calls *)

Lemma engine_calls_app tr1 tr2 :
  engine_calls (tr1 ++ tr2) = engine_calls tr1 ++ engine_calls tr2.
Proof. apply flat_map_app. Qed.

Lemma engine_calls_gx cmds : engine_calls (map EvGX cmds) = [].
Proof. induction cmds as [|c l IH]; [reflexivity | exact IH]. Qed.

Lemma engine_calls_no_gx tr : gx_stream tr = [] -> engine_calls tr = tr.
Proof.
  induction tr as [|ev tr IH]; [reflexivity|].
  destruct ev; cbn; intros Hgx; try (f_equal; now apply IH). discriminate.
Qed.

Lemma same_engine_emit_gx (w1 w2 : World E) cmds :
  same_engine w1 w2 -> same_engine (emit (map EvGX cmds) w1) w2.
Proof.
  intros [Hft Hlog]. split; [exact Hft|].
  cbn [emit log]. now rewrite engine_calls_app, engine_calls_gx, app_nil_r.
Qed.

Lemma call_FT_Set_Pixel_Sizes_same fc pw ph (w1 w2 : World E) :
  same_engine w1 w2 ->
  (call_FT_Set_Pixel_Sizes fc pw ph w1).1 = (call_FT_Set_Pixel_Sizes fc pw ph w2).1
  /\ same_engine (call_FT_Set_Pixel_Sizes fc pw ph w1).2
                 (call_FT_Set_Pixel_Sizes fc pw ph w2).2.
Proof.
  intros [Hft Hlog]. unfold call_FT_Set_Pixel_Sizes. rewrite Hft.
  destruct (FT_Set_Pixel_Sizes fc pw ph (ft w2)) as [err e].
  split; [reflexivity|]. split; [reflexivity|].
  cbn [snd emit with_ft log]. now rewrite !engine_calls_app, Hlog.
Qed.

Lemma call_FT_Get_Char_Index_same fc c (w1 w2 : World E) :
  same_engine w1 w2 ->
  (call_FT_Get_Char_Index fc c w1).1 = (call_FT_Get_Char_Index fc c w2).1
  /\ same_engine (call_FT_Get_Char_Index fc c w1).2 (call_FT_Get_Char_Index fc c w2).2.
Proof.
  intros [Hft Hlog]. unfold call_FT_Get_Char_Index. rewrite Hft.
  destruct (FT_Get_Char_Index fc c (ft w2)) as [idx e].
  split; [reflexivity|]. split; [reflexivity|].
  cbn [snd emit with_ft log]. now rewrite !engine_calls_app, Hlog.
Qed.

Lemma call_FT_Get_Kerning_same fc l r mode (w1 w2 : World E) :
  same_engine w1 w2 ->
  (call_FT_Get_Kerning fc l r mode w1).1 = (call_FT_Get_Kerning fc l r mode w2).1
  /\ same_engine (call_FT_Get_Kerning fc l r mode w1).2
                 (call_FT_Get_Kerning fc l r mode w2).2.
Proof.
  intros [Hft Hlog]. unfold call_FT_Get_Kerning. rewrite Hft.
  destruct (FT_Get_Kerning fc l r mode (ft w2)) as [delta e].
  split; [reflexivity|]. split; [reflexivity|].
  cbn [snd emit with_ft log]. now rewrite !engine_calls_app, Hlog.
Qed.

Lemma call_FT_Load_Glyph_same fc idx flags (w1 w2 : World E) :
  same_engine w1 w2 ->
  (call_FT_Load_Glyph fc idx flags w1).1 = (call_FT_Load_Glyph fc idx flags w2).1
  /\ same_engine (call_FT_Load_Glyph fc idx flags w1).2
                 (call_FT_Load_Glyph fc idx flags w2).2.
Proof.
  intros [Hft Hlog]. unfold call_FT_Load_Glyph. rewrite Hft.
  destruct (FT_Load_Glyph fc idx flags (ft w2)) as [err e].
  split; [reflexivity|]. split; [reflexivity|].
  cbn [snd emit with_ft log]. now rewrite !engine_calls_app, Hlog.
Qed.

(** The printing loop and the measuring loop, started in worlds the
    engine cannot tell apart, end in such worlds with the same pen. *)
Lemma glyph_loop_same_engine font penY x y cR cG cB cA x' y' cR' cG' cB' cA' utf32 :
  forall penX prev (w1 w2 : World E),
    same_engine w1 w2 ->
    let r1 := glyph_loop font x y penY cR cG cB cA false utf32 penX prev w1 in
    let r2 := glyph_loop font x' y' penY cR' cG' cB' cA' true utf32 penX prev w2 in
    r1.1 = r2.1 /\ same_engine r1.2 r2.2.
Proof.
  induction utf32 as [|c utf32' IH]; intros penX prev w1 w2 Hse; cbn [glyph_loop].
  { auto. }
  destruct (c =? 0); [auto|].
  destruct (call_FT_Get_Char_Index_same (face font) (to_u32 c) w1 w2 Hse) as [Hi Hse1].
  destruct (call_FT_Get_Char_Index (face font) (to_u32 c) w1) as [idx w1a].
  destruct (call_FT_Get_Char_Index (face font) (to_u32 c) w2) as [idx' w2a].
  cbn [fst snd] in Hi, Hse1. subst idx'.
  assert (Hkern : exists penX' (w1b w2b : World E),
            (if kerning font && negb (prev =? 0) && negb (idx =? 0)
             then let '(delta, w') :=
                    call_FT_Get_Kerning (face font) prev idx FT_KERNING_DEFAULT w1a in
                  (to_s32 (penX + Z.shiftr (vec_x delta) 6), w')
             else (penX, w1a)) = (penX', w1b)
            /\ (if kerning font && negb (prev =? 0) && negb (idx =? 0)
                then let '(delta, w') :=
                       call_FT_Get_Kerning (face font) prev idx FT_KERNING_DEFAULT w2a in
                     (to_s32 (penX + Z.shiftr (vec_x delta) 6), w')
                else (penX, w2a)) = (penX', w2b)
            /\ same_engine w1b w2b).
  { destruct (kerning font && negb (prev =? 0) && negb (idx =? 0)); [|eauto 6].
    destruct (call_FT_Get_Kerning_same (face font) prev idx FT_KERNING_DEFAULT
                w1a w2a Hse1) as [Hd Hse2].
    destruct (call_FT_Get_Kerning (face font) prev idx FT_KERNING_DEFAULT w1a)
      as [delta w1b].
    destruct (call_FT_Get_Kerning (face font) prev idx FT_KERNING_DEFAULT w2a)
      as [delta' w2b].
    cbn [fst snd] in Hd, Hse2. subst delta'. eauto 6. }
  destruct Hkern as (penX' & w1b & w2b & -> & -> & Hse2).
  destruct (call_FT_Load_Glyph_same (face font) idx FT_LOAD_RENDER w1b w2b Hse2)
    as [He Hse3].
  destruct (call_FT_Load_Glyph (face font) idx FT_LOAD_RENDER w1b) as [err w1c].
  destruct (call_FT_Load_Glyph (face font) idx FT_LOAD_RENDER w2b) as [err' w2c].
  cbn [fst snd] in He, Hse3. subst err'.
  destruct (negb (err =? 0)); [now apply IH|].
  cbn [negb]. destruct Hse3 as [Hft3 Hlog3]. rewrite Hft3. apply IH.
  apply same_engine_emit_gx. now split.
Qed.

(** X8.  Measuring is printing without GX: from the same world
    [GRRLIB_WidthTTFW] makes the calls to the font engine that
    [GRRLIB_PrintfTTFW] makes, in the same order and with the same
    answers, returns the same width and leaves the engine in the same
    state; its part of the log is the printing part with the GX commands
    taken out. *)
Theorem measuring_is_printing_without_gx x y myFont utf32 fontSize color
    (w : World E) r1 w1 r2 w2 :
  GRRLIB_PrintfTTFW x y myFont utf32 fontSize color w = Some (r1, w1) ->
  GRRLIB_WidthTTFW myFont utf32 fontSize w = Some (r2, w2) ->
  r1 = r2 /\ ft w1 = ft w2
  /\ exists tr1, log w1 = log w ++ tr1 /\ log w2 = log w ++ engine_calls tr1.
Proof.
  unfold GRRLIB_PrintfTTFW, GRRLIB_WidthTTFW. intros Hp Hm.
  destruct (PrintfTTFW_effects _ _ _ _ _ _ _ _ _ _ Hp) as (_ & _ & tr1 & Hlog1 & _).
  destruct (PrintfTTFW_noprint_silent _ _ _ _ _ _ _ _ _ Hm) as (tr2 & Hlog2 & Hgx2).
  assert (Hse : r1 = r2 /\ same_engine w1 w2).
  { unfold _PrintfTTFW in Hp, Hm.
    destruct (myFont =? NULL); [split; [congruence|]; split; congruence|].
    destruct utf32 as [u|]; [|split; [congruence|]; split; congruence].
    destruct (heap w !! myFont) as [font|]; [|discriminate].
    cbv zeta in Hp, Hm.
    destruct (call_FT_Set_Pixel_Sizes (face font) 0 fontSize w) as [err wa] eqn:Hsz.
    set (wb := if negb (err =? 0)
               then (call_FT_Set_Pixel_Sizes (face font) 0 12 wa).2 else wa) in *.
    pose proof (glyph_loop_same_engine font (to_s32 fontSize) x y
                  (to_u8 (R color)) (to_u8 (G color)) (to_u8 (B color))
                  (to_u8 (A color))
                  0 0 (to_u8 (R 0)) (to_u8 (G 0)) (to_u8 (B 0)) (to_u8 (A 0))
                  u 0 0 wb wb (conj eq_refl eq_refl)) as [Hpen Hse].
    cbv zeta in Hpen, Hse.
    destruct (glyph_loop font x y _ _ _ _ _ false u 0 0 wb) as [p1 wc].
    destruct (glyph_loop font 0 0 _ _ _ _ _ true u 0 0 wb) as [p2 wc'].
    cbn [fst snd] in *. injection Hp as <- <-. injection Hm as <- <-.
    split; [now rewrite Hpen | exact Hse]. }
  destruct Hse as [Hr [Hft Hcalls]].
  split; [exact Hr|]. split; [exact Hft|].
  exists tr1. split; [exact Hlog1|].
  rewrite Hlog2. f_equal.
  rewrite Hlog1, Hlog2, !engine_calls_app in Hcalls.
  apply app_inv_head in Hcalls.
  now rewrite Hcalls, engine_calls_no_gx.
Qed.

(** *** Edge cases of the text *)

Lemma glyph_loop_wcs_chars font x y penY cR cG cB cA noprint utf32 :
  forall penX prev (w : World E),
    glyph_loop font x y penY cR cG cB cA noprint utf32 penX prev w
    = glyph_loop font x y penY cR cG cB cA noprint (wcs_chars utf32) penX prev w.
Proof.
  induction utf32 as [|c utf32' IH]; intros penX prev w; [reflexivity|].
  cbn [glyph_loop wcs_chars]. destruct (c =? 0) eqn:Hc; [reflexivity|].
  cbn [glyph_loop]. rewrite Hc.
  destruct (call_FT_Get_Char_Index (face font) (to_u32 c) w) as [idx w1].
  destruct (if kerning font && negb (prev =? 0) && negb (idx =? 0)
            then let '(delta, w') :=
                   call_FT_Get_Kerning (face font) prev idx FT_KERNING_DEFAULT w1 in
                 (to_s32 (penX + Z.shiftr (vec_x delta) 6), w')
            else (penX, w1)) as [penX' w2].
  destruct (call_FT_Load_Glyph (face font) idx FT_LOAD_RENDER w2) as [err w3].
  destruct (negb (err =? 0)); apply IH.
Qed.

(** X9.  The terminator ends the text: the cells that follow the first
    zero of a wide string are never looked at, so a run on [s], a zero and
    anything else is the run on [s]. *)
Theorem PrintfTTFW_stops_at_terminator x y myFont s junk fontSize color noprint
    (w : World E) :
  _PrintfTTFW x y myFont (Some (s ++ 0 :: junk)) fontSize color noprint w
  = _PrintfTTFW x y myFont (Some s) fontSize color noprint w.
Proof.
  assert (Hchars : wcs_chars (s ++ 0 :: junk) = wcs_chars s).
  { induction s as [|c s IH]; [reflexivity|].
    cbn. destruct (c =? 0); [reflexivity | now rewrite IH]. }
  unfold _PrintfTTFW.
  destruct (myFont =? NULL); [reflexivity|].
  destruct (heap w !! myFont) as [font|]; [|reflexivity].
  cbv zeta.
  destruct (call_FT_Set_Pixel_Sizes (face font) 0 fontSize w) as [err w1].
  rewrite (glyph_loop_wcs_chars _ _ _ _ _ _ _ _ _ (s ++ 0 :: junk)).
  rewrite (glyph_loop_wcs_chars _ _ _ _ _ _ _ _ _ s).
  now rewrite Hchars.
Qed.

(** X10.  The empty text: on an empty wide string [_PrintfTTFW] returns 0
    after setting the pixel size, which is all it adds to the log, while
    [_PrintfTTF] on a text that decodes to nothing returns 0 without
    calling the engine. *)
Theorem empty_text_returns_zero x y myFont font utf32 fontSize color noprint
    (w : World E) :
  myFont <> NULL -> heap w !! myFont = Some font -> wcs_chars utf32 = [] ->
  (exists setup w',
     _PrintfTTFW x y myFont (Some utf32) fontSize color noprint w = Some (0, w')
     /\ log w' = log w ++ setup
     /\ size_events (face font) fontSize setup)
  /\ (forall str, mb_decode str = Some [] ->
      _PrintfTTF x y myFont (Some str) fontSize color noprint w = Some (0, w)).
Proof.
  intros Hnn Hfont Hempty. split.
  - destruct (PrintfTTFW_run x y myFont font utf32 fontSize color noprint w Hnn Hfont)
      as (setup & tr & pen & w' & Hrun & (Hlog & _) & Hsetup & Htext).
    rewrite Hempty in Htext. inversion Htext; subst.
    exists setup, w'. rewrite app_nil_r in Hlog. auto.
  - intros str Hdec.
    rewrite (PrintfTTF_decoded x y myFont str [] fontSize color noprint w Hnn Hdec);
      [reflexivity | cbn; lia].
Qed.

(** *** A font whose glyphs cannot be loaded *)

Lemma call_FT_Load_Glyph_err fc idx flags (w : World E) :
  (call_FT_Load_Glyph fc idx flags w).1 = (FT_Load_Glyph fc idx flags (ft w)).1.
Proof.
  unfold call_FT_Load_Glyph. now destruct (FT_Load_Glyph fc idx flags (ft w)).
Qed.

Lemma glyph_loop_no_glyph font x y penY cR cG cB cA noprint :
  (forall idx flags e, (FT_Load_Glyph (face font) idx flags e).1 <> 0) ->
  forall utf32 (w : World E),
    let r := glyph_loop font x y penY cR cG cB cA noprint utf32 0 0 w in
    r.1 = 0 /\ gx_stream (log r.2) = gx_stream (log w)
    /\ kerning_requests (log r.2) = kerning_requests (log w).
Proof.
  intros Hfail. induction utf32 as [|c utf32' IH]; intros w; cbn [glyph_loop].
  { auto. }
  destruct (c =? 0); [auto|].
  pose proof (call_FT_Get_Char_Index_extends (face font) (to_u32 c) w) as (Hl1 & _).
  destruct (call_FT_Get_Char_Index (face font) (to_u32 c) w) as [idx w1].
  cbn [fst snd] in Hl1.
  change (0 =? 0) with true. cbn [negb]. rewrite andb_false_r. cbn [andb].
  pose proof (call_FT_Load_Glyph_extends (face font) idx FT_LOAD_RENDER w1) as (Hl2 & _).
  pose proof (call_FT_Load_Glyph_err (face font) idx FT_LOAD_RENDER w1) as Herr.
  destruct (call_FT_Load_Glyph (face font) idx FT_LOAD_RENDER w1) as [err w2].
  cbn [fst snd] in Hl2, Herr.
  assert (Hne : err <> 0) by (rewrite Herr; apply Hfail).
  apply Z.eqb_neq in Hne. rewrite Hne. cbn [negb].
  destruct (IH w2) as (Hpen & Hgx & Hk).
  split; [exact Hpen|].
  rewrite Hgx, Hk, Hl2, Hl1. unfold gx_stream, kerning_requests.
  rewrite !flat_map_app. cbn. now rewrite !app_nil_r.
Qed.

(** X11.  A font that renders no glyph has no width: when every
    [FT_Load_Glyph] on the face fails, [_PrintfTTFW] returns 0 for every
    text, sends nothing to GX and never asks for kerning. *)
Theorem no_glyph_no_width x y myFont font utf32 fontSize color noprint (w : World E) :
  myFont <> NULL -> heap w !! myFont = Some font ->
  (forall idx flags e, (FT_Load_Glyph (face font) idx flags e).1 <> 0) ->
  exists w',
    _PrintfTTFW x y myFont (Some utf32) fontSize color noprint w = Some (0, w')
    /\ gx_stream (log w') = gx_stream (log w)
    /\ kerning_requests (log w') = kerning_requests (log w).
Proof.
  intros Hnn Hfont Hfail. unfold _PrintfTTFW.
  apply Z.eqb_neq in Hnn. rewrite Hnn, Hfont. cbv zeta.
  pose proof (size_step (face font) fontSize w) as Hsize. cbv zeta in Hsize.
  destruct (call_FT_Set_Pixel_Sizes (face font) 0 fontSize w) as [err w1].
  cbn [fst snd] in Hsize. destruct Hsize as (setup & (Hlog & _) & Hsetup).
  set (w2 := if negb (err =? 0)
             then (call_FT_Set_Pixel_Sizes (face font) 0 12 w1).2 else w1) in *.
  pose proof (glyph_loop_no_glyph font x y (to_s32 fontSize)
                (to_u8 (R color)) (to_u8 (G color)) (to_u8 (B color)) (to_u8 (A color))
                noprint Hfail utf32 w2) as Hloop.
  cbv zeta in Hloop.
  destruct (glyph_loop font x y _ _ _ _ _ noprint utf32 0 0 w2) as [penX w3].
  cbn [fst snd] in Hloop. destruct Hloop as (-> & Hgx & Hk).
  exists w3. split; [reflexivity|].
  rewrite Hgx, Hk, Hlog. unfold gx_stream, kerning_requests.
  rewrite !flat_map_app. destruct Hsetup; cbn; now rewrite !app_nil_r.
Qed.

End PrintMore.

Section PrintMoreRuns.

#[local] Existing Instances Demo.demo_engine Demo.demo_libc Demo.rgba.

Lemma rendering_keeps_handles_witness :
  exists r w',
    _PrintfTTFW 100 50 4096 (Some [65; 66]) 2 4278190335 false Demo.w0 = Some (r, w')
    /\ heap w' = heap Demo.w0 /\ ftLibrary w' = ftLibrary Demo.w0
    /\ exists tr, log w' = log Demo.w0 ++ tr /\ forallb is_render_event tr = true.
Proof.
  destruct (_PrintfTTFW 100 50 4096 (Some [65; 66]) 2 4278190335 false Demo.w0)
    as [[r w']|] eqn:Hrun; [|vm_compute in Hrun; discriminate].
  exists r, w'. split; [reflexivity|].
  destruct (rendering_keeps_handles 100 50 4096 (Some [65; 66]) None 2 4278190335
              false Demo.w0) as [Hwide _].
  exact (Hwide r w' Hrun).
Defined.

Lemma measuring_is_printing_without_gx_witness :
  exists r1 w1 r2 w2,
    GRRLIB_PrintfTTFW 100 50 4096 (Some [65; 66; 67]) 2 4278190335 Demo.w0
    = Some (r1, w1)
    /\ GRRLIB_WidthTTFW 4096 (Some [65; 66; 67]) 2 Demo.w0 = Some (r2, w2)
    /\ r1 = r2 /\ ft w1 = ft w2
    /\ exists tr1, log w1 = log Demo.w0 ++ tr1
                   /\ log w2 = log Demo.w0 ++ engine_calls tr1.
Proof.
  destruct (GRRLIB_PrintfTTFW 100 50 4096 (Some [65; 66; 67]) 2 4278190335 Demo.w0)
    as [[r1 w1]|] eqn:Hp; [|vm_compute in Hp; discriminate].
  destruct (GRRLIB_WidthTTFW 4096 (Some [65; 66; 67]) 2 Demo.w0)
    as [[r2 w2]|] eqn:Hm; [|vm_compute in Hm; discriminate].
  exists r1, w1, r2, w2. split; [reflexivity|]. split; [reflexivity|].
  exact (measuring_is_printing_without_gx _ _ _ _ _ _ _ _ _ _ _ Hp Hm).
Defined.

Lemma empty_text_returns_zero_witness :
  (exists setup w',
     _PrintfTTFW 100 50 4096 (Some [0; 65]) 2 4278190335 false Demo.w0 = Some (0, w')
     /\ log w' = log Demo.w0 ++ setup
     /\ size_events (face Demo.a_font) 2 setup)
  /\ (forall str, mb_decode str = Some [] ->
      _PrintfTTF 100 50 4096 (Some str) 2 4278190335 false Demo.w0
      = Some (0, Demo.w0)).
Proof.
  apply (empty_text_returns_zero 100 50 4096 Demo.a_font).
  - vm_compute. lia.
  - vm_compute. reflexivity.
  - reflexivity.
Defined.

End PrintMoreRuns.

Section BrokenEngineRuns.

#[local] Existing Instances DemoBroken.broken_engine Demo.demo_libc Demo.rgba.

Lemma no_glyph_no_width_witness :
  exists w',
    _PrintfTTFW 100 50 4096 (Some [65; 66; 67]) 2 4278190335 false Demo.w0
    = Some (0, w')
    /\ gx_stream (log w') = gx_stream (log Demo.w0)
    /\ kerning_requests (log w') = kerning_requests (log Demo.w0).
Proof.
  apply (no_glyph_no_width 100 50 4096 Demo.a_font).
  - vm_compute. lia.
  - vm_compute. reflexivity.
  - intros idx flags e. simpl. lia.
Defined.

End BrokenEngineRuns.

(** ** More about font handles *)

Section HandleMore.

Context {E : Type} `{FreeType E} `{LibC} `{ColourMacros}.

(** What a returning [GRRLIB_LoadTTF] has done. *)
Lemma LoadTTF_effects file_base file_size (w : World E) p w' :
  GRRLIB_LoadTTF file_base file_size w = Some (p, w') ->
  let r := FT_New_Memory_Face (ftLibrary w) file_base file_size 0 (ft w) in
  let ev := EvFT_New_Memory_Face (ftLibrary w) file_base file_size 0 r.1.1 r.1.2 in
  ft w' = r.2 /\ ftLibrary w' = ftLibrary w
  /\ ((p = NULL /\ r.1.1 <> 0 /\ heap w' = heap w /\ log w' = log w ++ [ev])
      \/ (p <> NULL /\ r.1.1 = 0
          /\ p = malloc (heap w) sizeof_GRRLIB_ttfFont
          /\ heap w' = <[p := {| face := r.1.2;
                                 kerning := FT_HAS_KERNING r.1.2 r.2 |}]> (heap w)
          /\ log w' = log w ++ [ev; Evmalloc sizeof_GRRLIB_ttfFont p])).
Proof.
  unfold GRRLIB_LoadTTF. cbv zeta.
  destruct (FT_New_Memory_Face (ftLibrary w) file_base file_size 0 (ft w))
    as [[err Face] e].
  cbn [fst snd emit with_ft with_heap heap ft log ftLibrary].
  destruct (Z.eqb_spec err 0) as [Herr|Herr]; cbn [negb].
  - destruct (Z.eqb_spec (malloc (heap w) sizeof_GRRLIB_ttfFont) NULL) as [Hm|Hm];
      [discriminate|].
    intros [= <- <-]. cbn [emit with_ft with_heap heap ft log ftLibrary].
    split; [reflexivity|]. split; [reflexivity|]. right.
    rewrite <- app_assoc. auto 6.
  - intros [= <- <-]. cbn [emit with_ft with_heap heap ft log ftLibrary]. auto 7.
Qed.

(** X12.  Load, then free: freeing the handle [GRRLIB_LoadTTF] returned,
    an address that was not in use, brings the heap of handles back to
    what it was; the four calls made are the creation of the face, the
    allocation, [FT_Done_Face] on that face and the release of that
    address. *)
Theorem LoadTTF_then_FreeTTF file_base file_size (w : World E) p w1 :
  GRRLIB_LoadTTF file_base file_size w = Some (p, w1) ->
  p <> NULL -> heap w !! p = None ->
  exists w2 Face,
    GRRLIB_FreeTTF p w1 = Some w2
    /\ heap w2 = heap w
    /\ log w2 = log w ++
         [ EvFT_New_Memory_Face (ftLibrary w) file_base file_size 0 0 Face;
           Evmalloc sizeof_GRRLIB_ttfFont p;
           EvFT_Done_Face Face;
           Evfree p ].
Proof.
  intros Hload Hnn Hfresh.
  destruct (LoadTTF_effects _ _ _ _ _ Hload) as (_ & _ & [(Hnull & _)|Hok]);
    [contradiction|].
  destruct Hok as (_ & Herr & _ & Hheap & Hlog).
  unfold GRRLIB_FreeTTF. apply Z.eqb_neq in Hnn as Hb. rewrite Hb. cbn [negb].
  rewrite Hheap, lookup_insert_eq. cbn [face].
  eexists _, _. split; [reflexivity|].
  cbn [emit with_ft with_heap heap ft log ftLibrary].
  rewrite Hheap, delete_insert_id by exact Hfresh.
  split; [reflexivity|].
  rewrite Hlog, Herr, <- !app_assoc. reflexivity.
Qed.


(** X14.  After [GRRLIB_FreeTTF] the pointer is dangling: freeing a live
    handle leaves every other handle as it was, and a second free or a
    print through the freed pointer is undefined. *)
Theorem use_after_free_is_undefined myFont font (w : World E) :
  myFont <> NULL -> heap w !! myFont = Some font ->
  exists w',
    GRRLIB_FreeTTF myFont w = Some w'
    /\ (forall q, q <> myFont -> heap w' !! q = heap w !! q)
    /\ GRRLIB_FreeTTF myFont w' = None
    /\ (forall x y utf32 fontSize color noprint,
         _PrintfTTFW x y myFont (Some utf32) fontSize color noprint w' = None).
Proof.
  intros Hnn Hfont. apply Z.eqb_neq in Hnn as Hb.
  set (w' := emit [Evfree myFont]
               (with_heap (delete myFont (heap w))
                  (emit [EvFT_Done_Face (face font)]
                     (with_ft (FT_Done_Face (face font) (ft w)) w)))).
  assert (Hheap : heap w' = delete myFont (heap w)) by reflexivity.
  exists w'. split.
  { unfold GRRLIB_FreeTTF. rewrite Hb, Hfont. reflexivity. }
  split; [intros q Hq; rewrite Hheap; now apply lookup_delete_ne|].
  split.
  - unfold GRRLIB_FreeTTF. rewrite Hb. cbn [negb].
    now rewrite Hheap, lookup_delete_eq.
  - intros x y utf32 fontSize color noprint. unfold _PrintfTTFW.
    now rewrite Hb, Hheap, lookup_delete_eq.
Qed.

(** X15.  Loading keeps the other fonts: a returning [GRRLIB_LoadTTF]
    changes the heap of handles at the returned address at most, and
    nowhere when it returns [NULL], in which case it has not called the
    allocator. *)
Theorem LoadTTF_keeps_other_fonts file_base file_size (w : World E) p w' :
  GRRLIB_LoadTTF file_base file_size w = Some (p, w') ->
  (forall q, q <> p -> heap w' !! q = heap w !! q)
  /\ (p = NULL ->
      heap w' = heap w
      /\ exists err Face,
           err <> 0
           /\ log w' = log w ++
                [EvFT_New_Memory_Face (ftLibrary w) file_base file_size 0 err Face]).
Proof.
  intros Hload.
  destruct (LoadTTF_effects _ _ _ _ _ Hload) as (_ & _ & [Hfail|Hok]).
  - destruct Hfail as (Hnull & Herr & Hheap & Hlog). split.
    + intros q _. now rewrite Hheap.
    + intros _. split; [exact Hheap | eauto].
  - destruct Hok as (Hnn & _ & _ & Hheap & _). split.
    + intros q Hq. rewrite Hheap. apply lookup_insert_ne. congruence.
    + intros Hnull. contradiction.
Qed.

End HandleMore.

Section HandleMoreRuns.

#[local] Existing Instances Demo.demo_engine Demo.demo_libc Demo.rgba.

Lemma LoadTTF_then_FreeTTF_witness :
  exists p w1 w2 Face,
    GRRLIB_LoadTTF [0; 1; 0; 0] 4 Demo.w_empty = Some (p, w1)
    /\ GRRLIB_FreeTTF p w1 = Some w2
    /\ heap w2 = heap Demo.w_empty
    /\ log w2 = log Demo.w_empty ++
         [ EvFT_New_Memory_Face (ftLibrary Demo.w_empty) [0; 1; 0; 0] 4 0 0 Face;
           Evmalloc sizeof_GRRLIB_ttfFont p;
           EvFT_Done_Face Face;
           Evfree p ].
Proof.
  destruct (GRRLIB_LoadTTF [0; 1; 0; 0] 4 Demo.w_empty) as [[p w1]|] eqn:Hload;
    [|vm_compute in Hload; discriminate].
  assert (Hp : p = 4096) by (vm_compute in Hload; congruence).
  destruct (LoadTTF_then_FreeTTF [0; 1; 0; 0] 4 Demo.w_empty p w1 Hload)
    as (w2 & Face & Hfree & Hheap & Hlog).
  - rewrite Hp. vm_compute. lia.
  - rewrite Hp. vm_compute. reflexivity.
  - exists p, w1, w2, Face. auto.
Defined.


Lemma use_after_free_is_undefined_witness :
  exists w',
    GRRLIB_FreeTTF 4096 Demo.w0 = Some w'
    /\ (forall q, q <> 4096 -> heap w' !! q = heap Demo.w0 !! q)
    /\ GRRLIB_FreeTTF 4096 w' = None
    /\ (forall x y utf32 fontSize color noprint,
         _PrintfTTFW x y 4096 (Some utf32) fontSize color noprint w' = None).
Proof.
  apply (use_after_free_is_undefined 4096 Demo.a_font Demo.w0).
  - vm_compute. lia.
  - vm_compute. reflexivity.
Defined.

Lemma LoadTTF_keeps_other_fonts_witness :
  exists p w',
    GRRLIB_LoadTTF [] 0 Demo.w0 = Some (p, w')
    /\ (forall q, q <> p -> heap w' !! q = heap Demo.w0 !! q)
    /\ (p = NULL ->
        heap w' = heap Demo.w0
        /\ exists err Face,
             err <> 0
             /\ log w' = log Demo.w0 ++
                  [EvFT_New_Memory_Face (ftLibrary Demo.w0) [] 0 0 err Face]).
Proof.
  destruct (GRRLIB_LoadTTF [] 0 Demo.w0) as [[p w']|] eqn:Hload;
    [|vm_compute in Hload; discriminate].
  exists p, w'. split; [reflexivity|].
  exact (LoadTTF_keeps_other_fonts [] 0 Demo.w0 p w' Hload).
Defined.

End HandleMoreRuns.

(** ** What a print run sends to GX *)

Section StreamFacts.

Context {E : Type} `{FreeType E} `{LibC} `{ColourMacros}.

Lemma DrawBitmap_text_points bmp offset top cR cG cB cA :
  exists pts,
    DrawBitmap bmp offset top cR cG cB cA = flat_map point_cmds pts
    /\ Forall (fun pt => pt_z pt = 0 /\ pt_r pt = cR /\ pt_g pt = cG /\ pt_b pt = cB
                         /\ 0 <= pt_a pt <= 255) pts.
Proof.
  eexists. split; [apply DrawBitmap_pixel_points|].
  apply for_lt_Forall. intros i p. apply for_lt_Forall. intros j q.
  constructor; [|constructor]. cbn [pixel_point pt_z pt_r pt_g pt_b pt_a].
  repeat (split; [reflexivity|]). apply to_u8_range.
Qed.

Lemma text_events_points font x y penY cR cG cB cA noprint prev pen cs tr pen' :
  text_events font x y penY cR cG cB cA noprint prev pen cs tr pen' ->
  exists pts,
    gx_stream tr = flat_map point_cmds pts
    /\ Forall (fun pt => pt_z pt = 0 /\ pt_r pt = cR /\ pt_g pt = cG /\ pt_b pt = cB
                         /\ 0 <= pt_a pt <= 255) pts.
Proof.
  induction 1 as [|prev pen c cs seg prev' pen' tr pen'' Hseg _ IH].
  { exists []. split; [reflexivity | constructor]. }
  destruct IH as (pts & Hgx & Hall).
  assert (Hk : forall p i kevs kpx,
            kern_events font p i kevs kpx -> gx_stream kevs = []).
  { intros p i kevs kpx [delta ? ? ?|?]; reflexivity. }
  destruct Hseg as [idx kevs kpx err slot Hkern _|idx kevs kpx slot Hkern].
  - exists pts. split; [|exact Hall].
    rewrite gx_stream_app, Hgx.
    change (EvFT_Get_Char_Index (face font) (to_u32 c) idx :: kevs ++
            [EvFT_Load_Glyph (face font) idx FT_LOAD_RENDER err slot])
      with ([EvFT_Get_Char_Index (face font) (to_u32 c) idx] ++ kevs ++
            [EvFT_Load_Glyph (face font) idx FT_LOAD_RENDER err slot]).
    now rewrite !gx_stream_app, (Hk _ _ _ _ Hkern).
  - destruct (DrawBitmap_text_points (bitmap slot)
                (to_s32 (pen + kpx + bitmap_left slot + x))
                (to_s32 (penY - bitmap_top slot + y)) cR cG cB cA)
      as (gpts & Hdraw & Hgall).
    exists ((if noprint then [] else gpts) ++ pts). split.
    + rewrite gx_stream_app, Hgx, flat_map_app. f_equal.
      change (EvFT_Get_Char_Index (face font) (to_u32 c) idx :: kevs ++
              [EvFT_Load_Glyph (face font) idx FT_LOAD_RENDER 0 slot] ++
              (if noprint then [] else map EvGX
                 (DrawBitmap (bitmap slot) (to_s32 (pen + kpx + bitmap_left slot + x))
                    (to_s32 (penY - bitmap_top slot + y)) cR cG cB cA)))
        with ([EvFT_Get_Char_Index (face font) (to_u32 c) idx] ++ kevs ++
              [EvFT_Load_Glyph (face font) idx FT_LOAD_RENDER 0 slot] ++
              (if noprint then [] else map EvGX
                 (DrawBitmap (bitmap slot) (to_s32 (pen + kpx + bitmap_left slot + x))
                    (to_s32 (penY - bitmap_top slot + y)) cR cG cB cA))).
      rewrite !gx_stream_app, (Hk _ _ _ _ Hkern).
      destruct noprint; [reflexivity|].
      cbn [app gx_stream flat_map gx_of]. now rewrite gx_stream_gx, Hdraw.
    + apply Forall_app. split; [|exact Hall].
      destruct noprint; [constructor | exact Hgall].
Qed.

(** X18.  The GX stream of a run is made of whole points: what
    [_PrintfTTFW] adds to the log contains, as GX commands, a sequence of
    complete one-vertex point primitives (begin, position, colour, end),
    each at depth 0 and in the red, green and blue of the text colour,
    with an alpha within 0..255. *)
Theorem printed_stream_is_points x y myFont font utf32 fontSize color noprint
    (w : World E) :
  myFont <> NULL -> heap w !! myFont = Some font ->
  exists r w' tr pts,
    _PrintfTTFW x y myFont (Some utf32) fontSize color noprint w = Some (r, w')
    /\ log w' = log w ++ tr
    /\ gx_stream tr = flat_map point_cmds pts
    /\ points (gx_stream tr) = pts
    /\ Forall (fun pt => pt_z pt = 0
                         /\ pt_r pt = to_u8 (R color) /\ pt_g pt = to_u8 (G color)
                         /\ pt_b pt = to_u8 (B color) /\ 0 <= pt_a pt <= 255) pts.
Proof.
  intros Hnn Hfont.
  destruct (PrintfTTFW_run x y myFont font utf32 fontSize color noprint w Hnn Hfont)
    as (setup & tr & pen & w' & Hrun & (Hlog & _) & Hsetup & Htext).
  destruct (text_events_points _ _ _ _ _ _ _ _ _ _ _ _ _ _ Htext)
    as (pts & Hgx & Hall).
  assert (Hstream : gx_stream (setup ++ tr) = flat_map point_cmds pts).
  { rewrite gx_stream_app, Hgx. destruct Hsetup; reflexivity. }
  exists (to_u32 pen), w', (setup ++ tr), pts.
  split; [exact Hrun|]. split; [exact Hlog|]. split; [exact Hstream|].
  split; [|exact Hall].
  rewrite Hstream. apply points_flat_point_cmds.
Qed.

End StreamFacts.

Section StreamRuns.

#[local] Existing Instances Demo.demo_engine Demo.demo_libc Demo.rgba.

Lemma printed_stream_is_points_witness :
  exists r w' tr pts,
    _PrintfTTFW 100 50 4096 (Some [65; 66]) 2 4278190335 false Demo.w0 = Some (r, w')
    /\ log w' = log Demo.w0 ++ tr
    /\ gx_stream tr = flat_map point_cmds pts
    /\ points (gx_stream tr) = pts
    /\ Forall (fun pt => pt_z pt = 0
                         /\ pt_r pt = to_u8 (R 4278190335)
                         /\ pt_g pt = to_u8 (G 4278190335)
                         /\ pt_b pt = to_u8 (B 4278190335)
                         /\ 0 <= pt_a pt <= 255) pts.
Proof.
  apply (printed_stream_is_points 100 50 4096 Demo.a_font).
  - vm_compute. lia.
  - vm_compute. reflexivity.
Defined.

End StreamRuns.

(** ** The blit, cell by cell *)

Section BlitFacts.

Lemma flat_map_nil {X Y : Type} (l : list X) :
  flat_map (fun _ : X => @nil Y) l = [].
Proof. induction l as [|a l IH]; [reflexivity | exact IH]. Qed.

Lemma cells_none (w r : Z) : w = 0 \/ r = 0 -> cells w r = [].
Proof.
  unfold cells. intros [-> | ->].
  - now rewrite (seqZ_nil 0 0) by lia.
  - rewrite (seqZ_nil 0 0) by lia. apply flat_map_nil.
Qed.

Lemma reach_range start extent :
  0 <= extent -> 0 <= reach start extent <= extent.
Proof. intros He. unfold reach. destruct (start + extent <=? INT_MAX); lia. Qed.

(** Past [INT_MAX] the loop bound of a column or row loop lies below its
    start value. *)
Lemma DrawBitmap_overflow bmp offset top cR cG cB cA :
  INT_MIN <= offset <= INT_MAX -> INT_MIN <= top <= INT_MAX ->
  0 <= width bmp <= UINT_MAX -> 0 <= rows bmp <= UINT_MAX ->
  INT_MAX < offset + width bmp \/ INT_MAX < top + rows bmp ->
  DrawBitmap bmp offset top cR cG cB cA = [].
Proof.
  unfold INT_MIN, INT_MAX, UINT_MAX. intros Ho Ht Hw Hr [Hx|Hy]; unfold DrawBitmap.
  - rewrite to_s32_wrap by (unfold INT_MAX; lia).
    replace (Z.to_nat (offset + width bmp - 2 ^ 32 - offset)) with O by lia.
    reflexivity.
  - apply for_lt_nil. intros i p.
    rewrite (to_s32_wrap (top + rows bmp)) by (unfold INT_MAX; lia).
    replace (Z.to_nat (top + rows bmp - 2 ^ 32 - top)) with O by lia.
    reflexivity.
Qed.

(** [DrawBitmap] on every bitmap and place the types allow: the cells it
    reaches, column after column, each sent as its point. *)
Lemma DrawBitmap_reach bmp offset top cR cG cB cA :
  INT_MIN <= offset <= INT_MAX -> INT_MIN <= top <= INT_MAX ->
  0 <= width bmp <= UINT_MAX -> 0 <= rows bmp <= UINT_MAX ->
  width bmp * rows bmp <= UINT_MAX + 1 ->
  DrawBitmap bmp offset top cR cG cB cA
  = flat_map point_cmds
      (map (cell_point bmp offset top cR cG cB cA)
           (cells (reach offset (width bmp)) (reach top (rows bmp)))).
Proof.
  intros Ho Ht Hw Hr Hsz. unfold reach.
  destruct (Z.leb_spec (offset + width bmp) INT_MAX) as [Hx|Hx].
  - destruct (Z.leb_spec (top + rows bmp) INT_MAX) as [Hy|Hy].
    + apply DrawBitmap_cells; lia.
    + rewrite DrawBitmap_overflow by (auto; lia).
      now rewrite cells_none by auto.
  - rewrite DrawBitmap_overflow by (auto; lia).
    now rewrite cells_none by auto.
Qed.

(** In a buffer that holds its cells, the byte of a cell is what
    [sample] reads. *)
Lemma sample_cell bmp p q :
  bitmap_ok bmp -> 0 <= p < width bmp -> 0 <= q < rows bmp ->
  sample bmp (q * width bmp + p) = nth (Z.to_nat (q * width bmp + p)) (buffer bmp) 0
  /\ 0 <= nth (Z.to_nat (q * width bmp + p)) (buffer bmp) 0 <= 255.
Proof.
  intros (_ & _ & Hlen & _ & Hbytes) Hp Hq.
  assert (Hidx : (Z.to_nat (q * width bmp + p) < length (buffer bmp))%nat) by nia.
  assert (Hb : 0 <= nth (Z.to_nat (q * width bmp + p)) (buffer bmp) 0 <= 255).
  { exact (proj1 (List.Forall_nth _ _) Hbytes _ 0 Hidx). }
  split; [|exact Hb]. unfold sample. now apply to_u8_id.
Qed.

(** C2.  Per-pixel alpha composite: the point [DrawBitmap] sends for a
    cell carries the red, green and blue of the text as they are and the
    alpha [max(0, b - (255 - cA))], where [b] is the byte of that cell and
    [cA] the text alpha; this value lies in 0..255, so that the
    conversions to [s16] and to the [u8] argument of [GX_Color4u8] change
    nothing.  Said of the body of the loops, of the loops as they run, and
    of the cells of a bitmap whose buffer holds them. *)
Theorem DrawBitmap_alpha_composite bmp offset top cR cG cB cA :
  0 <= cA <= 255 ->
  (forall b, 0 <= b <= 255 ->
     pixel_alpha b cA = Z.max 0 (b - (255 - cA))
     /\ 0 <= pixel_alpha b cA <= 255
     /\ to_u8 (pixel_alpha b cA) = pixel_alpha b cA)
  /\ (forall i p j q,
        let b := sample bmp (to_u32 (q * width bmp + p)) in
        DrawPixel bmp i p j q cR cG cB cA
        = [ GX_Begin GX_POINTS GX_VTXFMT0 1;
            GX_Position3f32 (to_f32 i) (to_f32 j) 0;
            GX_Color4u8 cR cG cB (Z.max 0 (b - (255 - cA)));
            GX_End ])
  /\ points (DrawBitmap bmp offset top cR cG cB cA)
     = for_lt (Z.to_nat (to_s32 (offset + width bmp) - offset)) offset 0
              (to_s32 (offset + width bmp))
         (fun i p =>
            for_lt (Z.to_nat (to_s32 (top + rows bmp) - top)) top 0
                   (to_s32 (top + rows bmp))
              (fun j q =>
                 [mkPoint (to_f32 i) (to_f32 j) 0 cR cG cB
                    (Z.max 0 (sample bmp (to_u32 (q * width bmp + p))
                              - (255 - cA)))]))
  /\ (bitmap_ok bmp ->
      INT_MIN <= offset <= INT_MAX -> INT_MIN <= top <= INT_MAX ->
      points (DrawBitmap bmp offset top cR cG cB cA)
      = map (fun c : Z * Z =>
               mkPoint (to_f32 (offset + c.1)) (to_f32 (top + c.2)) 0 cR cG cB
                 (Z.max 0 (nth (Z.to_nat (c.2 * width bmp + c.1)) (buffer bmp) 0
                           - (255 - cA))))
            (cells (reach offset (width bmp)) (reach top (rows bmp)))).
Proof.
  intros HcA.
  assert (Hpix : forall b, 0 <= b <= 255 ->
            pixel_alpha b cA = Z.max 0 (b - (255 - cA))
            /\ 0 <= pixel_alpha b cA <= 255
            /\ to_u8 (pixel_alpha b cA) = pixel_alpha b cA).
  { intros b Hb. rewrite pixel_alpha_bytes by assumption.
    split; [reflexivity|]. split; [lia|]. apply to_u8_id. lia. }
  split; [exact Hpix|]. split; [|split].
  - intros i p j q b. unfold DrawPixel. fold b.
    destruct (Hpix b (sample_byte _ _)) as (Hmax & _ & Hu8).
    now rewrite Hu8, Hmax.
  - rewrite points_DrawBitmap.
    apply for_lt_ext. intros i p. apply for_lt_ext. intros j q.
    unfold pixel_point.
    destruct (Hpix _ (sample_byte bmp (to_u32 (q * width bmp + p))))
      as (Hmax & _ & Hu8).
    now rewrite Hu8, Hmax.
  - intros Hok Ho Ht.
    pose proof (bitmap_ok_cells bmp Hok) as Hsz.
    pose proof Hok as (Hw & Hr & _).
    rewrite DrawBitmap_reach by assumption.
    rewrite points_flat_point_cmds.
    apply map_ext_in. intros [p q] Hin.
    apply list_elem_of_In, cells_elem in Hin.
    pose proof (reach_range offset (width bmp) (proj1 Hw)) as Hrw.
    pose proof (reach_range top (rows bmp) (proj1 Hr)) as Hrr.
    destruct (sample_cell bmp p q Hok) as [Hs Hb]; [lia | lia |].
    unfold cell_point. cbn [fst snd]. rewrite Hs.
    destruct (Hpix _ Hb) as (Hmax & _ & Hu8).
    now rewrite Hu8, Hmax.
Qed.

Lemma DrawBitmap_alpha_composite_witness :
  points (DrawBitmap Demo.a_bitmap 10 20 1 2 3 200)
  = [ mkPoint 10 20 0 1 2 3 0;  mkPoint 10 21 0 1 2 3 145;
      mkPoint 11 20 0 1 2 3 45; mkPoint 11 21 0 1 2 3 200 ].
Proof.
  destruct (DrawBitmap_alpha_composite Demo.a_bitmap 10 20 1 2 3 200)
    as (_ & _ & _ & Hcells); [lia|].
  rewrite Hcells.
  - vm_compute. reflexivity.
  - unfold bitmap_ok, UINT_MAX. simpl.
    repeat split; try lia; repeat constructor; lia.
  - unfold INT_MIN, INT_MAX. lia.
  - unfold INT_MIN, INT_MAX. lia.
Defined.

(** C5.  Blit geometry, as the code has it: a bitmap of width [w] and
    [r] rows whose buffer holds its cells, drawn at [(offset, top)] with
    [offset + w] and [top + r] within [int], is sent as exactly [w * r]
    points and nothing else, one for each cell [(p, q)] with
    [0 <= p < w] and [0 <= q < r], at the [f32] values of
    [(offset + p, top + q, 0)], which are these integers themselves as
    long as the place lies within 2^24 of the origin, with the coverage
    read at index [q * w + p]; when [offset + w] or [top + r] passes
    [INT_MAX] nothing is sent. *)
Theorem DrawBitmap_geometry bmp offset top cR cG cB cA :
  bitmap_ok bmp ->
  INT_MIN <= offset <= INT_MAX -> INT_MIN <= top <= INT_MAX ->
  let cs := cells (width bmp) (rows bmp) in
  let pt := fun c : Z * Z =>
    mkPoint (to_f32 (offset + c.1)) (to_f32 (top + c.2)) 0 cR cG cB
            (to_u8 (pixel_alpha (sample bmp (c.2 * width bmp + c.1)) cA)) in
  (offset + width bmp <= INT_MAX -> top + rows bmp <= INT_MAX ->
   DrawBitmap bmp offset top cR cG cB cA = flat_map point_cmds (map pt cs)
   /\ points (DrawBitmap bmp offset top cR cG cB cA) = map pt cs
   /\ length (points (DrawBitmap bmp offset top cR cG cB cA))
      = Z.to_nat (width bmp * rows bmp)
   /\ NoDup cs
   /\ (forall p q, (p, q) ∈ cs <-> 0 <= p < width bmp /\ 0 <= q < rows bmp)
   /\ (- 2 ^ 24 <= offset -> offset + width bmp <= 2 ^ 24 + 1 ->
       - 2 ^ 24 <= top -> top + rows bmp <= 2 ^ 24 + 1 ->
       map pt_pos (points (DrawBitmap bmp offset top cR cG cB cA))
       = map (fun c : Z * Z => (offset + c.1, top + c.2, 0)) cs))
  /\ (INT_MAX < offset + width bmp \/ INT_MAX < top + rows bmp ->
      DrawBitmap bmp offset top cR cG cB cA = []).
Proof.
  intros Hok Ho Ht cs pt.
  pose proof (bitmap_ok_cells bmp Hok) as Hsz.
  pose proof Hok as (Hw & Hr & _).
  split; [|intros Hover; apply DrawBitmap_overflow; assumption].
  intros Hx Hy.
  assert (Hdraw : DrawBitmap bmp offset top cR cG cB cA
                  = flat_map point_cmds (map pt cs)).
  { rewrite DrawBitmap_cells by lia. f_equal.
    apply map_ext. intros [p q]. reflexivity. }
  assert (Hpts : points (DrawBitmap bmp offset top cR cG cB cA) = map pt cs).
  { rewrite Hdraw. apply points_flat_point_cmds. }
  split; [exact Hdraw|]. split; [exact Hpts|].
  split; [rewrite Hpts, length_map; apply cells_length; lia|].
  split; [apply cells_NoDup|].
  split; [intros p q; apply cells_elem|].
  intros Ho24 Hx24 Ht24 Hy24.
  rewrite Hpts, map_map. apply map_ext_in. intros [p q] Hin.
  apply list_elem_of_In, cells_elem in Hin.
  unfold pt, pt_pos. cbn [pt_x pt_y pt_z fst snd].
  rewrite !to_f32_exact by lia. reflexivity.
Qed.

Lemma DrawBitmap_geometry_witness :
  points (DrawBitmap Demo.a_bitmap 10 20 1 2 3 255)
  = [ mkPoint 10 20 0 1 2 3 0;   mkPoint 10 21 0 1 2 3 200;
      mkPoint 11 20 0 1 2 3 100; mkPoint 11 21 0 1 2 3 255 ]
  /\ DrawBitmap Demo.a_bitmap 2147483646 20 1 2 3 255 = [].
Proof.
  assert (Hok : bitmap_ok Demo.a_bitmap).
  { unfold bitmap_ok, UINT_MAX. simpl.
    repeat split; try lia; repeat constructor; lia. }
  split.
  - destruct (DrawBitmap_geometry Demo.a_bitmap 10 20 1 2 3 255 Hok)
      as [Hin _]; [unfold INT_MIN, INT_MAX; lia ..|].
    destruct Hin as (_ & Hpts & _); [unfold INT_MAX; simpl; lia ..|].
    rewrite Hpts. vm_compute. reflexivity.
  - destruct (DrawBitmap_geometry Demo.a_bitmap 2147483646 20 1 2 3 255 Hok)
      as [_ Hout]; [unfold INT_MIN, INT_MAX; lia ..|].
    apply Hout. left. unfold INT_MAX. simpl. lia.
Defined.

(** The claim without its bounds fails: at the last [int] column a
    one-cell bitmap is not drawn, and beyond 2^24 two neighbouring cells
    are sent to one position. *)
Lemma DrawBitmap_geometry_counterexample :
  length (points (DrawBitmap {| rows := 1; width := 1; buffer := [255] |}
                    2147483647 0 255 255 255 255))
  <> Z.to_nat (1 * 1)
  /\ map pt_pos (points (DrawBitmap {| rows := 1; width := 2; buffer := [255; 255] |}
                         16777216 0 255 255 255 255))
     <> [(16777216 + 0, 0 + 0, 0); (16777216 + 1, 0 + 0, 0)].
Proof. split; vm_compute; discriminate. Qed.

End BlitFacts.

Section WidthRuns.

#[local] Existing Instances Demo.demo_engine Demo.demo_libc Demo.rgba.


End WidthRuns.
